(** * Blessed: delegation, mixins and pseudo-inheritance (src/blessed.js)

    A shallow embedding of the six functions of [blessed.js] over an explicit
    JavaScript object heap, and the properties its specification states.

    The fragment of JavaScript that is modelled:
    - values are [undefined], [null], booleans, integer-valued numbers and
      [NaN], strings, and references to heap objects;
    - an object is a table of data properties in enumeration order (each with
      its value and its enumerable flag), an optional prototype reference and,
      for a function, its code; every object is extensible and every property
      is writable, but for the [prototype] property of a class or of a
      built-in constructor; accessors (the [__proto__] of [Object.prototype]
      among them), proxies and frozen objects are outside, and so are names
      that are array indices, which engines enumerate first;
    - [x.hasOwnProperty(k)] and [func.apply(object, args)] look the method up
      on [x] and on [func]: where that is the built-in one the call is
      modelled, where it is no function the engine's TypeError is thrown, and
      where it is a function of the user the outcome is [Unmodelled];
      [splice] and [replace] are the built-in ones;
    - a prototype reference points to an object allocated earlier (the only
      object creation of [blessed.js], [new _Clazz()], is of this kind), and
      the chain walk follows only such references;
    - [for (p in o)] enumerates a snapshot taken when the loop starts: own
      enumerable properties first, then those of the prototypes, a name being
      visited once and never when an object nearer in the chain has a property
      of that name;
    - what needs the wrapper prototypes of primitives or a user [toString]
      (property access on a number, stringification of an object) has the
      outcome [Unmodelled]. *)

From Stdlib Require Import ZArith Ascii String DecimalString.
From stdpp Require Import list strings.


(** * The model *)

(** ** Values *)

Abbreviation loc := nat.

Inductive num :=
  | NaN
  | Fin (z : Z).

Inductive value :=
  | VUndef
  | VNull
  | VBool (b : bool)
  | VNum (x : num)
  | VStr (s : string)
  | VObj (l : loc).

#[global] Instance num_eq_dec : EqDecision num.
Proof. solve_decision. Defined.

#[global] Instance value_eq_dec : EqDecision value.
Proof. solve_decision. Defined.

(** The outcome of a call: a returned value, an error thrown with the
    message [msg], or a behaviour outside the modelled fragment. *)
Inductive res (A : Type) :=
  | Ret (a : A)
  | Thrown (msg : string)
  | Unmodelled.

Arguments Ret {A} a.
Arguments Thrown {A} msg.
Arguments Unmodelled {A}.

(** [v == null] *)
Definition is_nullish (v : value) : bool :=
  match v with
  | VUndef | VNull => true
  | _ => false
  end.

(** ToBoolean, as used by [||] and [&&]. *)
Definition truthy (v : value) : bool :=
  match v with
  | VUndef | VNull => false
  | VBool b => b
  | VNum NaN => false
  | VNum (Fin z) => negb (z =? 0)%Z
  | VStr s => negb (bool_decide (s = ""))
  | VObj _ => true
  end.

(** [a || b] *)
Definition js_or (a b : value) : value := if truthy a then a else b.

(** ToNumber on the values whose conversion needs neither the numeric-string
    grammar nor a user method. *)
Definition to_num (v : value) : option num :=
  match v with
  | VUndef => Some NaN
  | VNull => Some (Fin 0)
  | VBool b => Some (Fin (if b then 1 else 0))
  | VNum x => Some x
  | VStr _ => None
  | VObj _ => None
  end.

Definition string_of_nat (n : nat) : string :=
  NilZero.string_of_uint (Nat.to_uint n).

Definition string_of_Z (z : Z) : string :=
  NilZero.string_of_int (Z.to_int z).

(** [v.toString()] for a non-null primitive. An integer prints with all its
    digits as long as every integer of its size is a number of its own, that
    is up to [2 ^ 53]; beyond, the digits are those of the nearest number,
    cut short, which is not modelled. *)
Definition to_str (v : value) : option string :=
  match v with
  | VStr s => Some s
  | VBool b => Some (if b then "true" else "false")
  | VNum NaN => Some "NaN"
  | VNum (Fin z) =>
      if (Z.abs z <=? 2 ^ 53)%Z then Some (string_of_Z z) else None
  | VUndef | VNull | VObj _ => None
  end.

(** ** Strings: [String.prototype.replace] with a string pattern *)

(** [strip_prefix p s] is the rest of [s] after its prefix [p]. *)
Fixpoint strip_prefix (p s : string) : option string :=
  match p, s with
  | EmptyString, _ => Some s
  | String a p', String b s' =>
      if Ascii.eqb a b then strip_prefix p' s' else None
  | String _ _, EmptyString => None
  end.

(** The first occurrence of [pat] in [s]: what stands before and after it. *)
Fixpoint split_first (pat s : string) : option (string * string) :=
  match strip_prefix pat s with
  | Some rest => Some ("", rest)
  | None =>
      match s with
      | EmptyString => None
      | String c s' =>
          match split_first pat s' with
          | Some (b, a) => Some (String c b, a)
          | None => None
          end
      end
  end.

(** GetSubstitution for a match without captures: [$$], [$&], [$`] and [$']
    are expanded; any other [$] stands for itself (so do [$1], [$2], ...,
    which the standard leaves to the engine when there is no capture). *)
Fixpoint get_substitution (matched before after repl : string) : string :=
  match repl with
  | EmptyString => ""
  | String c r1 =>
      if Ascii.eqb c "$"%char then
        match r1 with
        | EmptyString => "$"
        | String d r =>
            if Ascii.eqb d "$"%char then
              String "$" (get_substitution matched before after r)
            else if Ascii.eqb d "&"%char then
              matched +:+ get_substitution matched before after r
            else if Ascii.eqb d "`"%char then
              before +:+ get_substitution matched before after r
            else if Ascii.eqb d "'"%char then
              after +:+ get_substitution matched before after r
            else String "$" (get_substitution matched before after r1)
        end
      else String c (get_substitution matched before after r1)
  end.

(** [s.replace(pat, repl)]: only the first occurrence is replaced. *)
Definition replace (s pat repl : string) : string :=
  match split_first pat s with
  | Some (b, a) => b +:+ get_substitution pat b a repl +:+ a
  | None => s
  end.

(** ** The error-message table *)

Inductive error_kind :=
  | E_undefined
  | E_notFunc
  | E_notNumber
  | E_negative
  | E_unimplemented
  | E_extendedProp
  | E_alreadyExtended.

Definition ERROR_MESSAGES (k : error_kind) : string :=
  match k with
  | E_undefined =>
      "{0}: Bad argument: parameter '{1}' was null or undefined."
  | E_notFunc =>
      "{0}: Bad argument: parameter '{1}' should be a function or the name of a function. Was '{2}' (type {3})."
  | E_notNumber =>
      "{0}: Bad argument: parameter '{1}' should be a number. Was '{2}' (type {3})."
  | E_negative =>
      "{0}: Bad argument: parameter '{1}' may not be negative, was '{2}'."
  | E_unimplemented => "Interface property '{0}' is not implemented."
  | E_extendedProp =>
      "{0}: Already extended: prototype has property '{1}' (type {2})."
  | E_alreadyExtended => "extend: Already extended."
  end.

(** ** interpolate *)

(** [(arguments[i] || "").toString()] *)
Definition arg_string (a : value) : option string :=
  if truthy a then to_str a else Some "".

(** The placeholder ["{" + (i - 1) + "}"] of the loop's index [i]. *)
Definition placeholder (n : nat) : string :=
  "{" +:+ string_of_nat n +:+ "}".

(** The loop of [interpolate], from placeholder number [n] on. *)
Fixpoint interpolate_from (n : nat) (str : string) (args : list value)
  : res string :=
  match args with
  | [] => Ret str
  | a :: rest =>
      match arg_string a with
      | Some r => interpolate_from (S n) (replace str (placeholder n) r) rest
      | None => Unmodelled
      end
  end.

Definition interpolate (str : value) (args : list value) : res value :=
  if is_nullish str then Ret VNull
  else
    match str with
    | VStr s =>
        match interpolate_from 0 s args with
        | Ret s' => Ret (VStr s')
        | Thrown m => Thrown m
        | Unmodelled => Unmodelled
        end
    | _ => match args with [] => Ret str | _ => Unmodelled end
    end.

(** ** Objects and the heap *)

Record prop := Prop_ { p_val : value; p_enum : bool }.

(** What a function object runs: code of the user, known by a number; the
    closure that [unBindAt] returns, with its captured [object], [func] and
    [thisArgNumber]; the built-in [Function.prototype.apply] and
    [Object.prototype.hasOwnProperty]; or the constructor of a class or a
    built-in constructor such as [Array], whose [prototype] property is
    read-only. *)
Inductive code :=
  | Native (id : nat)
  | Delegate (object : value) (func : loc) (thisArgNumber : nat)
  | Apply
  | HasOwnProperty
  | Class (id : nat).

(** The errors that the engine throws by itself, both of them TypeErrors:
    a call of what is no function, and, in strict code, a write to a
    read-only property. The language does not fix their messages. *)
Inductive type_error :=
  | Not_a_function
  | Read_only.

Record obj := Obj {
  props : list (string * prop);
  proto : option loc;
  fn : option code
}.

Abbreviation heap := (list obj).

#[global] Instance prop_eq_dec : EqDecision prop.
Proof. solve_decision. Defined.

#[global] Instance code_eq_dec : EqDecision code.
Proof. solve_decision. Defined.

#[global] Instance obj_eq_dec : EqDecision obj.
Proof. solve_decision. Defined.

(** The property table of one object. *)
Fixpoint assoc (k : string) (ps : list (string * prop)) : option prop :=
  match ps with
  | [] => None
  | (k', p) :: r => if decide (k' = k) then Some p else assoc k r
  end.

(** Assignment to an own property keeps its place and flag; a new property is
    enumerable and comes last. *)
Fixpoint assoc_set (k : string) (v : value) (ps : list (string * prop))
  : list (string * prop) :=
  match ps with
  | [] => [(k, Prop_ v true)]
  | (k', p) :: r =>
      if decide (k' = k) then (k', Prop_ v (p_enum p)) :: r
      else (k', p) :: assoc_set k v r
  end.

Definition own (h : heap) (l : loc) (k : string) : option prop :=
  match h !! l with
  | Some o => assoc k (props o)
  | None => None
  end.

(** The built-in test, [Object.prototype.hasOwnProperty.call(o, k)]. *)
Definition has_own (h : heap) (l : loc) (k : string) : bool :=
  match own h l k with
  | Some _ => true
  | None => false
  end.

(** The prototype chain of [l], itself first. *)
Fixpoint chain_fuel (n : nat) (h : heap) (l : loc) : list loc :=
  match n with
  | 0 => []
  | S n' =>
      match h !! l with
      | None => []
      | Some o =>
          l :: match proto o with
               | Some l' => if decide (l' < l) then chain_fuel n' h l' else []
               | None => []
               end
      end
  end.

Definition chain (h : heap) (l : loc) : list loc := chain_fuel (S l) h l.

Fixpoint lookup_along (h : heap) (c : list loc) (k : string) : option prop :=
  match c with
  | [] => None
  | l :: r =>
      match own h l k with
      | Some p => Some p
      | None => lookup_along h r k
      end
  end.

(** The property that [o[k]] resolves to, through the prototype chain. *)
Definition get_prop (h : heap) (l : loc) (k : string) : option prop :=
  lookup_along h (chain h l) k.

(** [o[k]] *)
Definition get (h : heap) (l : loc) (k : string) : value :=
  match get_prop h l k with
  | Some p => p_val p
  | None => VUndef
  end.

(** [o[k] = v] *)
Definition put (h : heap) (l : loc) (k : string) (v : value) : heap :=
  alter (λ o, Obj (assoc_set k v (props o)) (proto o) (fn o)) l h.

(** The names that one object adds to an enumeration in which the names of
    [seen] were met before. *)
Fixpoint enum_props (seen : list string) (ps : list (string * prop))
  : list string :=
  match ps with
  | [] => []
  | (k, p) :: r =>
      if decide (k ∈ seen) then enum_props seen r
      else (if p_enum p then [k] else []) ++ enum_props (k :: seen) r
  end.

Fixpoint enum_along (h : heap) (seen : list string) (c : list loc)
  : list string :=
  match c with
  | [] => []
  | l :: r =>
      match h !! l with
      | None => enum_along h seen r
      | Some o =>
          enum_props seen (props o)
            ++ enum_along h ((props o).*1 ++ seen) r
      end
  end.

(** The names [for (k in o)] visits, in order. *)
Definition enum_keys (h : heap) (l : loc) : list string :=
  enum_along h [] (chain h l).

Definition is_callable (h : heap) (l : loc) : bool :=
  match h !! l with
  | Some o => match fn o with Some _ => true | None => false end
  | None => false
  end.

(** The code of the function that [v] is, when it is one. *)
Definition code_of (h : heap) (v : value) : option code :=
  match v with
  | VObj l =>
      match h !! l with
      | Some o => fn o
      | None => None
      end
  | _ => None
  end.

Definition typeof (h : heap) (v : value) : string :=
  match v with
  | VUndef => "undefined"
  | VNull => "object"
  | VBool _ => "boolean"
  | VNum _ => "number"
  | VStr _ => "string"
  | VObj l => if is_callable h l then "function" else "object"
  end.

(** [typeof v === 'function'] *)
Definition is_function (h : heap) (v : value) : bool :=
  bool_decide (typeof h v = "function").

(** [v[k]] for a non-null [v]; a primitive needs its wrapper prototype. *)
Definition read (h : heap) (v : value) (k : string) : option value :=
  match v with
  | VObj l => Some (get h l k)
  | _ => None
  end.

(** The loop [for (k in o) body], over the snapshot [keys]. *)
Fixpoint for_in (body : heap → string → heap * res unit)
    (keys : list string) (h : heap) : heap * res unit :=
  match keys with
  | [] => (h, Ret tt)
  | k :: ks =>
      match body h k with
      | (h', Ret _) => for_in body ks h'
      | (h', Thrown m) => (h', Thrown m)
      | (h', Unmodelled) => (h', Unmodelled)
      end
  end.

(** The names [for (k in v)] visits: none for [null] and [undefined]. *)
Definition enum_of (h : heap) (v : value) : option (list string) :=
  match v with
  | VObj l => Some (enum_keys h l)
  | VUndef | VNull => Some []
  | _ => None
  end.

(** [Array.prototype.slice.call(arg, skipping)] on the arguments of a call. *)
Definition toArray (arg : list value) (skipping : nat) : list value :=
  drop skipping arg.

(** [args.splice(start, 0, item)]: a start beyond the end is the end. *)
Definition splice (start : nat) (item : value) (args : list value)
  : list value :=
  take start args ++ item :: drop start args.

(** [throw new Error(interpolate(ERROR_MESSAGES[k], args...))] *)
Definition throw_error {A : Type} (k : error_kind) (args : list value)
    (h : heap) : heap * res A :=
  match interpolate (VStr (ERROR_MESSAGES k)) args with
  | Ret (VStr m) => (h, Thrown m)
  | _ => (h, Unmodelled)
  end.

(** [x - 1] *)
Definition minus_one (v : value) : option value :=
  match to_num v with
  | Some NaN => Some (VNum NaN)
  | Some (Fin z) => Some (VNum (Fin (z - 1)))
  | None => None
  end.

Definition objOrPrototype (h : heap) (variant : value) : value :=
  match variant with
  | VObj l =>
      if is_function h variant && negb (is_nullish (get h l "prototype"))
      then get h l "prototype"
      else variant
  | _ => variant
  end.

(** ** The functions of [blessed.js] *)

Section Blessed.

Set Default Proof Using "Type".

(** The behaviour of user functions: [native id this args] transforms the
    heap and returns or throws. *)
Variable native : nat → value → list value → heap → heap * res value.

(** The marker object [LAST_ARG], and the realm's [Object.prototype] and
    [Function.prototype] when the heap holds them. *)
Variable LAST_ARG : loc.
Variable ObjectPrototype : option loc.
Variable FunctionPrototype : option loc.

(** The messages of the engine's own errors. *)
Variable TypeError : type_error → string.

(** [o.hasOwnProperty(k)], as lines 169 and 218 write it: the method is
    looked up on [o]. It is the built-in one, or a function of the user,
    whose run is not modelled, or no function. *)
Definition hasOwnProperty (h : heap) (l : loc) (k : string) : res bool :=
  match code_of h (get h l "hasOwnProperty") with
  | Some HasOwnProperty => Ret (has_own h l k)
  | Some _ => Unmodelled
  | None => Thrown (TypeError Not_a_function)
  end.

(** The call of the function [f] on the receiver [this] with the arguments
    [args]. The closure of [unBindAt] runs line 80, [func.apply(object,
    args)], where [apply] is looked up on [func]: the built-in one calls
    [func]; one of the user would get the arguments as an array, which is
    not modelled. *)
Fixpoint call_fuel (n : nat) (h : heap) (f : loc) (this : value)
    (args : list value) : heap * res value :=
  match n with
  | 0 => (h, Unmodelled)
  | S n' =>
      match h !! f with
      | Some o =>
          match fn o with
          | Some (Native id) => native id this args h
          | Some (Delegate object func thisArgNumber) =>
              match code_of h (get h func "apply") with
              | Some Apply =>
                  if decide (func < f)
                  then call_fuel n' h func object
                         (splice thisArgNumber this (toArray args 0))
                  else (h, Unmodelled)
              | Some _ => (h, Unmodelled)
              | None => (h, Thrown (TypeError Not_a_function))
              end
          | Some HasOwnProperty =>
              match this, args with
              | VObj l, VStr k :: _ => (h, Ret (VBool (has_own h l k)))
              | _, _ => (h, Unmodelled)
              end
          | Some Apply => (h, Unmodelled)
          | Some (Class _) => (h, Unmodelled)
          | None => (h, Unmodelled)
          end
      | None => (h, Unmodelled)
      end
  end.

Definition call (h : heap) (f : loc) (this : value) (args : list value)
  : heap * res value :=
  call_fuel (S f) h f this args.

(** A function expression makes two objects: the function, and the object of
    its [prototype] property. *)
Definition new_function (at_ : loc) (c : code) (arity : nat) : list obj :=
  [ Obj [("length", Prop_ (VNum (Fin (Z.of_nat arity))) false);
         ("prototype", Prop_ (VObj (S at_)) false)]
        FunctionPrototype (Some c);
    Obj [("constructor", Prop_ (VObj at_) false)] ObjectPrototype None ].

(** Line 70: a string that names a function of [object] stands for it. *)
Definition resolve_func (h : heap) (object func : value) : option value :=
  match func with
  | VStr s =>
      match read h object s with
      | Some v => Some (if is_function h v then v else func)
      | None => None
      end
  | _ => Some func
  end.

(** Lines 72 and 73: the default and the marker [LAST_ARG]. *)
Definition resolve_position (h : heap) (f : loc) (thisArgNumber : value)
  : option value :=
  let t := if is_nullish thisArgNumber then VNum (Fin 0) else thisArgNumber in
  if decide (t = VObj LAST_ARG)
  then minus_one (js_or (get h f "_applyLength") (get h f "length"))
  else Some t.

Definition unBindAt (h : heap) (object func thisArgNumber : value)
  : heap * res value :=
  if is_nullish object
  then throw_error E_undefined [VStr "unBindAt"; VStr "object"] h
  else if is_nullish func
  then throw_error E_undefined [VStr "unBindAt"; VStr "func"] h
  else
    match resolve_func h object func with
    | None => (h, Unmodelled)
    | Some (VObj f as func') =>
        if is_function h func' then
          match resolve_position h f thisArgNumber with
          | None => (h, Unmodelled)
          | Some t =>
              match to_num t with
              | None => (h, Unmodelled)
              | Some NaN =>
                  throw_error E_notNumber
                    [VStr "unBindAt"; VStr "thisArgNumber"; t;
                     VStr (typeof h t)] h
              | Some (Fin z) =>
                  if (z <? 0)%Z
                  then throw_error E_negative
                         [VStr "unBindAt"; VStr "thisArgNumber"; t] h
                  else
                    (h ++ new_function (List.length h)
                            (Delegate object f (Z.to_nat z)) 0,
                     Ret (VObj (List.length h)))
              end
          end
        else throw_error E_notFunc
               [VStr "unBindAt"; VStr "func"; func'; VStr (typeof h func')] h
    | Some func' =>
        throw_error E_notFunc
          [VStr "unBindAt"; VStr "func"; func'; VStr (typeof h func')] h
    end.

(** The body of the loop of [bless]. *)
Definition bless_prop (blessee benediction inWhichArg : value)
    (h : heap) (property : string) : heap * res unit :=
  match blessee, benediction with
  | VObj t, VObj b =>
      if is_nullish (get h t property) then
        if is_function h (get h b property) then
          match unBindAt h benediction (VStr property) inWhichArg with
          | (h', Ret d) => (put h' t property d, Ret tt)
          | (h', Thrown m) => (h', Thrown m)
          | (h', Unmodelled) => (h', Unmodelled)
          end
        else (put h t property (get h b property), Ret tt)
      else (h, Ret tt)
  | _, _ => (h, Unmodelled)
  end.

Definition bless (h : heap) (blessee benediction inWhichArg : value)
  : heap * res value :=
  if is_nullish benediction
  then throw_error E_undefined [VStr "bless"; VStr "benediction"] h
  else if is_nullish blessee
  then throw_error E_undefined [VStr "bless"; VStr "blessee"] h
  else
    let blessee := objOrPrototype h blessee in
    let benediction := objOrPrototype h benediction in
    match enum_of h benediction with
    | None => (h, Unmodelled)
    | Some keys =>
        match for_in (bless_prop blessee benediction inWhichArg) keys h with
        | (h', Ret _) => (h', Ret VUndef)
        | (h', Thrown m) => (h', Thrown m)
        | (h', Unmodelled) => (h', Unmodelled)
        end
    end.

(** [new _Clazz()] after [_Clazz.prototype = p]: a fresh object whose
    prototype is [p] when [p] is an object, and [Object.prototype] otherwise.
    ([_Clazz] itself is garbage once [extend] returns and is not allocated.) *)
Definition new_Clazz (p : value) : obj :=
  Obj [] (match p with VObj q => Some q | _ => ObjectPrototype end) None.

(** The body of the loop of lines 168 to 172. *)
Definition extend_prop (p : loc) (h : heap) (key : string)
  : heap * res unit :=
  match hasOwnProperty h p key with
  | Ret true =>
      throw_error E_extendedProp
        [VStr "extend"; VStr key; VStr (typeof h (get h p key))] h
  | Ret false => (h, Ret tt)
  | Thrown m => (h, Thrown m)
  | Unmodelled => (h, Unmodelled)
  end.

(** [subclass.prototype] cannot be assigned to: in strict code, as here,
    line 182 then throws, when line 179 has run and [new _Clazz()] has made
    an object that nothing refers to (it is not allocated). *)
Definition read_only_prototype (h : heap) (s : loc) : bool :=
  match code_of h (VObj s) with
  | Some (Class _) => true
  | _ => false
  end.

Definition extend (h : heap) (subclass superclass : value)
  : heap * res value :=
  if is_nullish subclass
  then throw_error E_undefined [VStr "extend"; VStr "subclass"] h
  else if is_nullish superclass
  then throw_error E_undefined [VStr "extend"; VStr "superclass"] h
  else
    match subclass with
    | VObj s =>
        let sp := get h s "prototype" in
        if truthy sp then
          match sp with
          | VObj p =>
              if decide (get h p "constructor" = subclass) then
                match for_in (extend_prop p) (enum_keys h p) h with
                | (h0, Ret _) =>
                    let h1 := put h0 s "parent" superclass in
                    match read h1 superclass "prototype" with
                    | Some q =>
                        if read_only_prototype h1 s
                        then (h1, Thrown (TypeError Read_only))
                        else
                          (put (h1 ++ [new_Clazz q]) s "prototype"
                             (VObj (List.length h1)),
                           Ret VUndef)
                    | None => (h1, Unmodelled)
                    end
                | (h0, Thrown m) => (h0, Thrown m)
                | (h0, Unmodelled) => (h0, Unmodelled)
                end
              else (h, Thrown (ERROR_MESSAGES E_alreadyExtended))
          | _ => (h, Unmodelled)
          end
        else (h, Thrown (ERROR_MESSAGES E_alreadyExtended))
    | _ => (h, Unmodelled)
    end.

(** The body of the inner loop of [mixin]. A write of [__proto__] goes to
    the accessor that [Object.prototype] has, which is not modelled. *)
Definition mixin_prop (child ingredient : value) (h : heap)
    (property : string) : heap * res unit :=
  match child, ingredient with
  | VObj c, VObj i =>
      match hasOwnProperty h c property with
      | Ret true => (h, Ret tt)
      | Ret false =>
          if decide (property = "__proto__") then (h, Unmodelled)
          else (put h c property (get h i property), Ret tt)
      | Thrown m => (h, Thrown m)
      | Unmodelled => (h, Unmodelled)
      end
  | _, _ => (h, Unmodelled)
  end.

(** The outer loop of [mixin], over [arguments[1]], [arguments[2]], ... *)
Fixpoint mixin_loop (child : value) (mixes : list value) (h : heap)
  : heap * res unit :=
  match mixes with
  | [] => (h, Ret tt)
  | m :: rest =>
      let ingredient := objOrPrototype h m in
      match enum_of h ingredient with
      | None => (h, Unmodelled)
      | Some keys =>
          match for_in (mixin_prop child ingredient) keys h with
          | (h', Ret _) => mixin_loop child rest h'
          | (h', Thrown e) => (h', Thrown e)
          | (h', Unmodelled) => (h', Unmodelled)
          end
      end
  end.

Definition mixin (h : heap) (child : value) (mixes : list value)
  : heap * res value :=
  if is_nullish child
  then throw_error E_undefined [VStr "mixin"; VStr "child"] h
  else
    let child := objOrPrototype h child in
    match mixin_loop child mixes h with
    | (h', Ret _) => (h', Ret child)
    | (h', Thrown e) => (h', Thrown e)
    | (h', Unmodelled) => (h', Unmodelled)
    end.

(** The body of the loop of [assertImplements]. *)
Definition assert_prop (child : value) (h : heap) (property : string)
  : heap * res unit :=
  match read h child property with
  | Some v =>
      if is_nullish v then throw_error E_unimplemented [VStr property] h
      else (h, Ret tt)
  | None => (h, Unmodelled)
  end.

Definition assertImplements (h : heap) (child interf : value)
  : heap * res value :=
  if is_nullish child
  then throw_error E_undefined [VStr "assertImplements"; VStr "child"] h
  else if is_nullish interf
  then throw_error E_undefined [VStr "assertImplements"; VStr "interf"] h
  else
    let interf := objOrPrototype h interf in
    match enum_of h interf with
    | None => (h, Unmodelled)
    | Some keys =>
        match for_in (assert_prop child) keys h with
        | (h', Ret _) => (h', Ret VUndef)
        | (h', Thrown m) => (h', Thrown m)
        | (h', Unmodelled) => (h', Unmodelled)
        end
    end.

(** * What the specification speaks of *)

(** [l.hasOwnProperty] is the built-in function. *)
Definition builtin_hasOwnProperty (h : heap) (l : loc) : Prop :=
  code_of h (get h l "hasOwnProperty") = Some HasOwnProperty.

(** [f.apply] is the built-in function. *)
Definition builtin_apply (h : heap) (f : loc) : Prop :=
  code_of h (get h f "apply") = Some Apply.

(** An argument that [interpolate] prints by itself and in full: a
    primitive, an integer being one up to [2 ^ 53]. An object is printed by
    its own [toString]. *)
Definition primitive (a : value) : bool :=
  match a with
  | VObj _ => false
  | VNum (Fin z) => (Z.abs z <=? 2 ^ 53)%Z
  | _ => true
  end.

(** A replacement text without [$] has no substitution pattern. *)
Fixpoint no_dollar (s : string) : bool :=
  match s with
  | EmptyString => true
  | String c r => negb (Ascii.eqb c "$"%char) && no_dollar r
  end.

(** The first occurrence of [pat] in [s] gives way to [r], taken literally. *)
Definition substitute_first (s pat r : string) : string :=
  match split_first pat s with
  | Some (b, a) => b +:+ r +:+ a
  | None => s
  end.

(** The placeholders [{n}], [{n+1}], ... filled in this order with [strs]. *)
Fixpoint fill_from (n : nat) (s : string) (strs : list string) : string :=
  match strs with
  | [] => s
  | r :: rest => fill_from (S n) (substitute_first s (placeholder n) r) rest
  end.

(** [func] is a function value, or a string that names a function of
    [object]: the function is [f]. *)
Definition names_function (h : heap) (object func : value) (f : loc) : Prop :=
  (func = VObj f
   ∨ ∃ o s, object = VObj o ∧ func = VStr s ∧ get h o s = VObj f)
  ∧ is_callable h f = true.

(** The first of the sources that enumerates [k]. *)
Fixpoint first_source (h : heap) (k : string) (mixes : list value)
  : option loc :=
  match mixes with
  | [] => None
  | m :: rest =>
      match objOrPrototype h m with
      | VObj s =>
          if decide (k ∈ enum_keys h s) then Some s
          else first_source h k rest
      | _ => first_source h k rest
      end
  end.

(** The own property [k] of the child after [mixin]: its own before the
    call, or else the copy from the first source that has it. *)
Definition mixed (h : heap) (c : loc) (mixes : list value) (k : string)
  : option prop :=
  match own h c k with
  | Some p => Some p
  | None =>
      match first_source h k mixes with
      | Some s => Some (Prop_ (get h s k) true)
      | None => None
      end
  end.

(** A source that [mixin] can take: null or undefined, or an object; when a
    function, one with a [prototype] property of its own. *)
Definition steady_source (h : heap) (m : value) : Prop :=
  is_nullish m = true
  ∨ ∃ l s, m = VObj l ∧ objOrPrototype h m = VObj s
           ∧ (is_function h m = true → is_Some (own h l "prototype")).

(** A source that gives the child neither a [hasOwnProperty] nor a
    [__proto__]: it enumerates neither name. *)
Definition plain_names (h : heap) (m : value) : Prop :=
  ∀ s, objOrPrototype h m = VObj s →
    ("hasOwnProperty" ∉ enum_keys h s) ∧ ("__proto__" ∉ enum_keys h s).

(** * Relations between heaps, for the proofs *)

(** [h'] has the objects of [h], with their prototypes and closures, and
    possibly more. *)
Definition heap_le (h h' : heap) : Prop :=
  ∀ l o, h !! l = Some o →
    ∃ o', h' !! l = Some o' ∧ proto o' = proto o ∧ fn o' = fn o.

(** The objects of [h] have in [h'] the own property [k] they had. *)
Definition same_at (k : string) (h h' : heap) : Prop :=
  ∀ l, l < length h → own h' l k = own h l k.

(** Whatever resolved to a value other than [null] and [undefined] in [h]
    resolves to that value in [h']. *)
Definition frame (h h' : heap) : Prop :=
  ∀ x k, is_nullish (get h x k) = false → get h' x k = get h x k.

(** A round of the loop of [bless] for [k] would change nothing: [t[k]] is
    there and not null, or [t] owns [k] with the value [b[k]]. *)
Definition settled (h : heap) (t b : loc) (k : string) : Prop :=
  is_nullish (get h t k) = false
  ∨ ∃ p, own h t k = Some p ∧ get h b k = p_val p.

(** [h'] is [h] but for own properties that the object [c] gained. *)
Definition grown_at (c : loc) (h h' : heap) : Prop :=
  length h' = length h
  ∧ (∀ l, l ≠ c → h' !! l = h !! l)
  ∧ heap_le h h'
  ∧ ∀ k p, own h c k = Some p → own h' c k = Some p.

(** A property table without the names of [P]. *)
Definition off (P : list string) (ps : list (string * prop))
  : list (string * prop) :=
  filter (λ kp, kp.1 ∉ P) ps.

(** [h'] has the objects of [h], unchanged but for properties named in [P],
    and possibly more. *)
Definition same_off (P : list string) (h h' : heap) : Prop :=
  ∀ l o, h !! l = Some o →
    ∃ o', h' !! l = Some o' ∧ proto o' = proto o ∧ fn o' = fn o
          ∧ off P (props o') = off P (props o).

(** * Scenarios *)

Definition plain (ps : list (string * prop)) : obj := Obj ps None None.

(** A constructor function, as a function declaration makes it, and the
    object of its [prototype] property. *)
Definition ctor (arity : Z) (p : loc) : obj :=
  Obj [("length", Prop_ (VNum (Fin arity)) false);
       ("prototype", Prop_ (VObj p) false)] None (Some (Native 0)).

Definition ctor_proto (c : loc) : obj :=
  Obj [("constructor", Prop_ (VObj c) false)] None None.

(** User code for the scenarios: every function returns its arguments'
    first element, or its receiver when it got none. *)
Definition demo_native (id : nat) (this : value) (args : list value)
    (h : heap) : heap * res value :=
  (h, Ret (match args with a :: _ => a | [] => this end)).

(** The built-in objects: [Object.prototype] at 0, [Function.prototype] at
    1, [Object.prototype.hasOwnProperty] at 2 and [Function.prototype.apply]
    at 3. *)
Definition builtins : heap :=
  [ Obj [("hasOwnProperty", Prop_ (VObj 2) false)] None None;
    Obj [("apply", Prop_ (VObj 3) false)] (Some 0) (Some (Native 0));
    Obj [("length", Prop_ (VNum (Fin 1)) false)] (Some 1)
      (Some HasOwnProperty);
    Obj [("length", Prop_ (VNum (Fin 2)) false)] (Some 1) (Some Apply) ].

(** An object literal, a function declaration and the object of its
    [prototype] property, with the prototypes they have among those. *)
Definition literal (ps : list (string * prop)) : obj := Obj ps (Some 0) None.

Definition func (arity : Z) (p : loc) : obj :=
  Obj [("length", Prop_ (VNum (Fin arity)) false);
       ("prototype", Prop_ (VObj p) false)] (Some 1) (Some (Native 0)).

Definition func_proto (c : loc) : obj :=
  Obj [("constructor", Prop_ (VObj c) false)] (Some 0) None.

(** The messages of an engine. *)
Definition demo_TypeError (e : type_error) : string :=
  match e with
  | Not_a_function => "not a function"
  | Read_only => "cannot assign to read only property"
  end.

(** [mixin({}, {a:1}, {a:2, b:2})], the three objects at 4, 5 and 6. *)
Definition mix_heap : heap :=
  builtins ++
  [ literal [];
    literal [("a", Prop_ (VNum (Fin 1)) true)];
    literal [("a", Prop_ (VNum (Fin 2)) true);
             ("b", Prop_ (VNum (Fin 2)) true)] ].


(** [FooUtility = {util1: function (aFoo, a) ..., version: 1}] at 4, its
    function at 5, [aFoo = {version: "mine"}] at 7 and the marker [LAST_ARG]
    at 8. *)
Definition foo_heap : heap :=
  builtins ++
  [ literal [("util1", Prop_ (VObj 5) true);
             ("version", Prop_ (VNum (Fin 1)) true)];
    func 2 6;
    func_proto 5;
    literal [("version", Prop_ (VStr "mine") true)];
    literal [("toString", Prop_ (VObj 5) true)] ].

(** [FooUtility] with a function that has a property [apply] of its own,
    the number 1. *)
Definition apply_heap : heap :=
  builtins ++
  [ literal [("util1", Prop_ (VObj 5) true)];
    Obj [("length", Prop_ (VNum (Fin 2)) false);
         ("prototype", Prop_ (VObj 6) false);
         ("apply", Prop_ (VNum (Fin 1)) true)] (Some 1) (Some (Native 0));
    func_proto 5 ].

(** [class A {}] at 4 and [function B() {}] at 6. *)
Definition class_heap : heap :=
  builtins ++
  [ Obj [("length", Prop_ (VNum (Fin 0)) false);
         ("prototype", Prop_ (VObj 5) false)] (Some 1) (Some (Class 0));
    func_proto 4;
    func 0 7;
    func_proto 6 ].

(** The marker object [LAST_ARG], at location 0, with its [toString]. *)
Definition realm_heap : heap :=
  [ Obj [("toString", Prop_ (VObj 1) true)] None None;
    ctor 0 2;
    ctor_proto 1 ].

(** [FooUtility = {util1: function (aFoo, a) ..., version: 1}] at 3, and
    [aFoo = {version: "mine"}] at 6. *)
Definition util_heap : heap :=
  realm_heap ++
  [ plain [("util1", Prop_ (VObj 4) true);
           ("version", Prop_ (VNum (Fin 1)) true)];
    ctor 2 5;
    ctor_proto 4;
    plain [("version", Prop_ (VStr "mine") true)] ].

(** A function at 3 that declares two parameters and has [_applyLength]
    set to 0. *)
Definition override_heap : heap :=
  realm_heap ++
  [ Obj [("length", Prop_ (VNum (Fin 2)) false);
         ("prototype", Prop_ (VObj 4) false);
         ("_applyLength", Prop_ (VNum (Fin 0)) true)] None (Some (Native 0));
    ctor_proto 3 ].

(** A function without [prototype] at 3 (a bound function is one), an
    object [P] at 4 and [{prototype: P, foo: 1}] at 5. *)
Definition bound_heap : heap :=
  realm_heap ++
  [ Obj [("length", Prop_ (VNum (Fin 0)) false)] None (Some (Native 0));
    plain [];
    plain [("prototype", Prop_ (VObj 4) true);
           ("foo", Prop_ (VNum (Fin 1)) true)] ].

(** Two constructors, [A] at 0 and [C] at 2, as their declarations make
    them. *)
Definition ext_heap : heap :=
  [ ctor 0 1; ctor_proto 0; ctor 0 3; ctor_proto 2 ].

(** * Properties *)

(** ** Strings *)

Lemma append_cons (c : ascii) (s r : string) :
  String c s +:+ r = String c (s +:+ r).
Proof. reflexivity. Qed.

Lemma append_empty (r : string) : "" +:+ r = r.
Proof. reflexivity. Qed.

Lemma strip_prefix_Some (p s r : string) :
  strip_prefix p s = Some r ↔ s = p +:+ r.
Proof.
  revert s. induction p as [|a p IH]; intros s; simpl.
  - split; [by intros [= ->] | by intros ->].
  - destruct s as [|b s]; [done|].
    destruct (Ascii.eqb_spec a b) as [->|Hne].
    + rewrite IH. split; [by intros -> | by intros [= ->]].
    + split; [done | intros [= -> _]; done].
Qed.

(** [split_first] finds an occurrence of the pattern ... *)
Lemma split_first_Some (pat s b a : string) :
  split_first pat s = Some (b, a) → s = b +:+ pat +:+ a.
Proof.
  revert b. induction s as [|c s IH]; intros b; simpl.
  - destruct (strip_prefix pat "") as [rest|] eqn:Hp; [|done].
    intros [= <- <-]. by apply strip_prefix_Some in Hp.
  - destruct (strip_prefix pat (String c s)) as [rest|] eqn:Hp.
    + intros [= <- <-]. by apply strip_prefix_Some in Hp.
    + destruct (split_first pat s) as [[b0 a0]|]; [|done].
      intros [= <- <-]. rewrite append_cons. f_equal. by apply IH.
Qed.

(** ... the leftmost one ... *)
Lemma split_first_least (pat s b a : string) :
  split_first pat s = Some (b, a) →
  ∀ b' a', s = b' +:+ pat +:+ a' → String.length b ≤ String.length b'.
Proof.
  revert b. induction s as [|c s IH]; intros b; simpl.
  - destruct (strip_prefix pat "") as [rest|]; [|done].
    intros [= <- <-] b' a' _. simpl. lia.
  - destruct (strip_prefix pat (String c s)) as [rest|] eqn:Hp.
    + intros [= <- <-] b' a' _. simpl. lia.
    + destruct (split_first pat s) as [[b0 a0]|] eqn:Hs; [|done].
      intros [= <- <-] b' a' Heq. destruct b' as [|c' b'].
      * rewrite append_empty in Heq. apply strip_prefix_Some in Heq. congruence.
      * rewrite append_cons in Heq. injection Heq as -> Heq. simpl.
        specialize (IH b0 eq_refl b' a' Heq). lia.
Qed.

(** ... and fails only when there is none. *)
Lemma split_first_None (pat s : string) :
  split_first pat s = None → ∀ b a, s ≠ b +:+ pat +:+ a.
Proof.
  induction s as [|c s IH]; simpl.
  - destruct (strip_prefix pat "") as [rest|] eqn:Hp; [done|].
    intros _ b a Heq. destruct b; [|done].
    rewrite append_empty in Heq. apply strip_prefix_Some in Heq. congruence.
  - destruct (strip_prefix pat (String c s)) as [rest|] eqn:Hp; [done|].
    destruct (split_first pat s) as [[b0 a0]|] eqn:Hs; [done|].
    intros _ b a Heq. destruct b as [|c' b].
    + rewrite append_empty in Heq. apply strip_prefix_Some in Heq. congruence.
    + rewrite append_cons in Heq. injection Heq as -> Heq.
      by apply (IH eq_refl b a).
Qed.

Lemma get_substitution_no_dollar (matched before after r : string) :
  no_dollar r = true → get_substitution matched before after r = r.
Proof.
  induction r as [|c r IH]; simpl; [done|].
  intros [Hc Hr]%andb_true_iff. apply negb_true_iff in Hc.
  rewrite Hc. by rewrite IH.
Qed.

Lemma replace_no_dollar (s pat r : string) :
  no_dollar r = true → replace s pat r = substitute_first s pat r.
Proof.
  intros Hr. unfold replace, substitute_first.
  destruct (split_first pat s) as [[b a]|]; [|done].
  by rewrite get_substitution_no_dollar.
Qed.

Lemma string_of_Z_nonempty (z : Z) : string_of_Z z ≠ "".
Proof.
  unfold string_of_Z. destruct (Z.to_int z) as [d|d]; simpl; [|done].
  destruct d; done.
Qed.

(** The empty string stands for a falsy argument, and for no other. *)
Lemma arg_string_empty (a : value) (r : string) :
  arg_string a = Some r → (r = "" ↔ truthy a = false).
Proof.
  unfold arg_string. destruct (truthy a) eqn:Ht.
  - intros Hs. split; [|done]. intros ->.
    destruct a as [| |b|[|z]|s|l]; simpl in *; try done.
    + by destruct b.
    + destruct (Z.abs z <=? _)%Z; [|done].
      injection Hs as Hs. by apply string_of_Z_nonempty in Hs.
    + injection Hs as ->. done.
  - by intros [= <-].
Qed.

Lemma interpolate_from_fill (n : nat) (s : string) (args : list value)
    (strs : list string) :
  Forall2 (λ a r, arg_string a = Some r ∧ no_dollar r = true) args strs →
  interpolate_from n s args = Ret (fill_from n s strs).
Proof.
  intros H. revert n s. induction H as [|a r args strs [Ha Hr] _ IH];
    intros n s; simpl; [done|].
  rewrite Ha, replace_no_dollar by done. apply IH.
Qed.

(** ** Property tables *)

Lemma assoc_None (k : string) (ps : list (string * prop)) :
  assoc k ps = None ↔ k ∉ ps.*1.
Proof.
  induction ps as [|[k' p] ps IH]; simpl.
  - split; [intros _; apply not_elem_of_nil | done].
  - rewrite not_elem_of_cons. case_decide; subst.
    + split; [done | intros [? _]; done].
    + rewrite IH. split; [intros ?; split; [congruence | done] | by intros [_ ?]].
Qed.

Lemma assoc_set_eq (k : string) (v : value) (ps : list (string * prop)) :
  assoc k (assoc_set k v ps)
  = Some (Prop_ v (match assoc k ps with Some p => p_enum p | None => true end)).
Proof.
  induction ps as [|[k' p] ps IH]; simpl.
  - by rewrite decide_True.
  - case_decide; simpl.
    + by rewrite decide_True.
    + by rewrite decide_False.
Qed.

Lemma assoc_set_ne (k k' : string) (v : value) (ps : list (string * prop)) :
  k ≠ k' → assoc k' (assoc_set k v ps) = assoc k' ps.
Proof.
  intros Hne. induction ps as [|[k0 p] ps IH]; simpl.
  - by rewrite decide_False.
  - case_decide; simpl; subst.
    + by rewrite !decide_False.
    + by rewrite IH.
Qed.

(** Writing the value a property already has changes nothing. *)
Lemma assoc_set_id (k : string) (p : prop) (ps : list (string * prop)) :
  assoc k ps = Some p → assoc_set k (p_val p) ps = ps.
Proof.
  induction ps as [|[k0 p0] ps IH]; simpl; [done|].
  case_decide.
  - intros [= ->]. by destruct p.
  - intros Hp. by rewrite IH.
Qed.

(** ** Prototype chains *)

Lemma chain_fuel_enough (h : heap) (n m : nat) (l : loc) :
  l < n → l < m → chain_fuel n h l = chain_fuel m h l.
Proof.
  revert m l. induction n as [|n IH]; intros m l Hn Hm; [lia|].
  destruct m as [|m]; [lia|]. simpl.
  destruct (h !! l) as [o|]; [|done]. f_equal.
  destruct (proto o) as [l'|]; [|done].
  case_decide; [|done]. apply IH; lia.
Qed.

Lemma chain_unfold (h : heap) (l : loc) :
  chain h l =
  match h !! l with
  | None => []
  | Some o =>
      l :: match proto o with
           | Some l' => if decide (l' < l) then chain h l' else []
           | None => []
           end
  end.
Proof.
  unfold chain at 1. simpl. destruct (h !! l) as [o|]; [|done]. f_equal.
  destruct (proto o) as [l'|]; [|done].
  case_decide; [|done]. apply chain_fuel_enough; lia.
Qed.

Lemma get_prop_unfold (h : heap) (l : loc) (k : string) :
  get_prop h l k =
  match h !! l with
  | None => None
  | Some o =>
      match assoc k (props o) with
      | Some p => Some p
      | None =>
          match proto o with
          | Some l' => if decide (l' < l) then get_prop h l' k else None
          | None => None
          end
      end
  end.
Proof.
  unfold get_prop. rewrite chain_unfold.
  destruct (h !! l) as [o|] eqn:Hl; [|done]. simpl. unfold own at 1.
  rewrite Hl. destruct (assoc k (props o)); [done|].
  destruct (proto o) as [l'|]; [|done]. by case_decide.
Qed.

Lemma get_unfold (h : heap) (l : loc) (k : string) :
  get h l k =
  match h !! l with
  | None => VUndef
  | Some o =>
      match assoc k (props o) with
      | Some p => p_val p
      | None =>
          match proto o with
          | Some l' => if decide (l' < l) then get h l' k else VUndef
          | None => VUndef
          end
      end
  end.
Proof.
  unfold get. rewrite get_prop_unfold.
  destruct (h !! l) as [o|]; [|done].
  destruct (assoc k (props o)); [done|].
  destruct (proto o) as [l'|]; [|done]. by case_decide.
Qed.

Lemma get_prop_own (h : heap) (l : loc) (k : string) (p : prop) :
  own h l k = Some p → get_prop h l k = Some p.
Proof.
  unfold own. rewrite get_prop_unfold.
  destruct (h !! l) as [o|]; [|done]. by intros ->.
Qed.

Lemma get_own (h : heap) (l : loc) (k : string) (p : prop) :
  own h l k = Some p → get h l k = p_val p.
Proof. intros H. unfold get. by rewrite (get_prop_own _ _ _ _ H). Qed.

Lemma get_prop_invalid (h : heap) (l : loc) (k : string) :
  length h ≤ l → get_prop h l k = None.
Proof.
  intros Hl. rewrite get_prop_unfold. by rewrite lookup_ge_None_2.
Qed.

Lemma get_invalid (h : heap) (l : loc) (k : string) :
  length h ≤ l → get h l k = VUndef.
Proof. intros Hl. unfold get. by rewrite get_prop_invalid. Qed.

(** ** Heaps that grow *)

Lemma heap_le_refl (h : heap) : heap_le h h.
Proof. intros l o Hl. eauto. Qed.

Lemma heap_le_trans (h1 h2 h3 : heap) :
  heap_le h1 h2 → heap_le h2 h3 → heap_le h1 h3.
Proof.
  intros H12 H23 l o Hl.
  destruct (H12 l o Hl) as (o2 & Hl2 & Hp2 & Hf2).
  destruct (H23 l o2 Hl2) as (o3 & Hl3 & Hp3 & Hf3).
  exists o3. split_and!; congruence.
Qed.

Lemma heap_le_length (h h' : heap) : heap_le h h' → length h ≤ length h'.
Proof.
  intros Hle. destruct (decide (length h ≤ length h')) as [|Hn]; [done|].
  assert (Hlt : length h' < length h) by lia.
  destruct (lookup_lt_is_Some_2 h _ Hlt) as [o Ho].
  destruct (Hle _ _ Ho) as (o' & Ho' & _).
  apply lookup_lt_Some in Ho'. lia.
Qed.

Lemma heap_le_put (h : heap) (t : loc) (k : string) (v : value) :
  heap_le h (put h t k v).
Proof.
  intros l o Hl. unfold put. rewrite list_lookup_alter.
  case_decide; subst; rewrite Hl; simpl; eauto.
Qed.

Lemma heap_le_app (h : heap) (os : list obj) : heap_le h (h ++ os).
Proof. intros l o Hl. exists o. by rewrite (lookup_app_l_Some _ _ _ _ Hl). Qed.

Lemma same_at_refl (k : string) (h : heap) : same_at k h h.
Proof. by intros l _. Qed.

Lemma same_at_trans (k : string) (h1 h2 h3 : heap) :
  heap_le h1 h2 → same_at k h1 h2 → same_at k h2 h3 → same_at k h1 h3.
Proof.
  intros Hle H12 H23 l Hl. rewrite <- H12 by done.
  apply H23. apply heap_le_length in Hle. lia.
Qed.

Lemma length_put (h : heap) (t : loc) (k : string) (v : value) :
  length (put h t k v) = length h.
Proof. apply length_alter. Qed.

Lemma own_put_ne_key (h : heap) (t l : loc) (k k' : string) (v : value) :
  k ≠ k' → own (put h t k v) l k' = own h l k'.
Proof.
  intros Hne. unfold own, put. rewrite list_lookup_alter.
  case_decide; [subst | reflexivity].
  destruct (h !! l) as [o|]; simpl; [|done]. by apply assoc_set_ne.
Qed.

Lemma own_put_ne_loc (h : heap) (t l : loc) (k k' : string) (v : value) :
  t ≠ l → own (put h t k v) l k' = own h l k'.
Proof. intros Hne. unfold own, put. by rewrite list_lookup_alter_ne. Qed.

Lemma own_put_eq (h : heap) (t : loc) (k : string) (v : value) :
  t < length h →
  own (put h t k v) t k
  = Some (Prop_ v (match own h t k with Some p => p_enum p | None => true end)).
Proof.
  intros Ht. destruct (lookup_lt_is_Some_2 h _ Ht) as [o Ho].
  unfold own, put. rewrite list_lookup_alter_eq, Ho. simpl.
  apply assoc_set_eq.
Qed.

Lemma own_app (h : heap) (os : list obj) (l : loc) (k : string) :
  l < length h → own (h ++ os) l k = own h l k.
Proof. intros Hl. unfold own. by rewrite lookup_app_l. Qed.

Lemma same_at_put_ne (h : heap) (t : loc) (k k' : string) (v : value) :
  k ≠ k' → same_at k' h (put h t k v).
Proof. intros Hne l _. by apply own_put_ne_key. Qed.

Lemma same_at_app (k : string) (h : heap) (os : list obj) :
  same_at k h (h ++ os).
Proof. intros l Hl. by apply own_app. Qed.

(** Writing the value a property already has changes nothing. *)
Lemma put_id (h : heap) (t : loc) (k : string) (p : prop) :
  own h t k = Some p → put h t k (p_val p) = h.
Proof.
  unfold own, put. destruct (h !! t) as [o|] eqn:Ho; [|done].
  intros Hp. apply list_eq. intros l. rewrite list_lookup_alter.
  case_decide; subst; [|done]. rewrite Ho. simpl.
  rewrite (assoc_set_id _ _ _ Hp). by destruct o.
Qed.

Lemma is_callable_le (h h' : heap) (l : loc) :
  heap_le h h' → l < length h → is_callable h' l = is_callable h l.
Proof.
  intros Hle Hl. destruct (lookup_lt_is_Some_2 h _ Hl) as [o Ho].
  destruct (Hle _ _ Ho) as (o' & Ho' & _ & Hf).
  unfold is_callable. by rewrite Ho, Ho', Hf.
Qed.

Lemma is_callable_valid (h : heap) (l : loc) :
  is_callable h l = true → l < length h.
Proof.
  unfold is_callable. destruct (h !! l) eqn:Hl; [|done].
  intros _. by apply lookup_lt_Some in Hl.
Qed.

Lemma is_function_callable (h : heap) (v : value) :
  is_function h v = true ↔ ∃ l, v = VObj l ∧ is_callable h l = true.
Proof.
  unfold is_function. rewrite bool_decide_eq_true. split.
  - destruct v as [| |b|x|s|l]; simpl; try done.
    destruct (is_callable h l) eqn:Hc; [eauto | done].
  - intros (l & -> & Hc). simpl. by rewrite Hc.
Qed.

Lemma is_function_nullish (h : heap) (v : value) :
  is_nullish v = true → is_function h v = false.
Proof. by destruct v. Qed.

(** A property that no write touched resolves as before. *)
Lemma get_prop_agree (h h' : heap) (k : string) :
  heap_le h h' → same_at k h h' →
  ∀ l, l < length h → get_prop h' l k = get_prop h l k.
Proof.
  intros Hle Hsame l. induction l as [l IH] using lt_wf_ind. intros Hl.
  destruct (lookup_lt_is_Some_2 h _ Hl) as [o Ho].
  destruct (Hle _ _ Ho) as (o' & Ho' & Hp & _).
  specialize (Hsame l Hl). unfold own in Hsame. rewrite Ho, Ho' in Hsame.
  rewrite (get_prop_unfold h'), (get_prop_unfold h), Ho, Ho', Hsame, Hp.
  destruct (assoc k (props o)); [done|].
  destruct (proto o) as [l'|]; [|done].
  case_decide; [|done]. apply IH; lia.
Qed.

Lemma get_agree (h h' : heap) (k : string) (l : loc) :
  heap_le h h' → same_at k h h' → l < length h → get h' l k = get h l k.
Proof. intros. unfold get. by rewrite (get_prop_agree h h'). Qed.

Lemma get_prop_put_ne (h : heap) (t l : loc) (k k' : string) (v : value) :
  k ≠ k' → get_prop (put h t k v) l k' = get_prop h l k'.
Proof.
  intros Hne. destruct (decide (l < length h)) as [Hl|Hl].
  - apply get_prop_agree; [apply heap_le_put | by apply same_at_put_ne | done].
  - rewrite !get_prop_invalid; [done | lia | rewrite length_put; lia].
Qed.

Lemma get_put_ne (h : heap) (t l : loc) (k k' : string) (v : value) :
  k ≠ k' → get (put h t k v) l k' = get h l k'.
Proof. intros. unfold get. by rewrite get_prop_put_ne. Qed.

Lemma get_put_eq (h : heap) (t : loc) (k : string) (v : value) :
  t < length h → get (put h t k v) t k = v.
Proof. intros Ht. by rewrite (get_own _ _ _ _ (own_put_eq h t k v Ht)). Qed.

(** A write where the target resolved to [null] or [undefined] leaves every
    non-null resolution in the heap as it was. *)
Lemma get_prop_put_frame (h : heap) (t x : loc) (k : string) (v : value) :
  is_nullish (get h t k) = true → is_nullish (get h x k) = false →
  get_prop (put h t k v) x k = get_prop h x k.
Proof.
  intros Ht. induction x as [x IH] using lt_wf_ind. intros Hx.
  destruct (decide (x = t)) as [->|Hne]; [congruence|].
  rewrite get_unfold in Hx.
  rewrite (get_prop_unfold (put h t k v)), (get_prop_unfold h).
  unfold put at 1. rewrite list_lookup_alter_ne by done.
  destruct (h !! x) as [o|]; [|done].
  destruct (assoc k (props o)); [done|].
  destruct (proto o) as [l'|]; [|done].
  case_decide; [|done]. by apply IH.
Qed.

Lemma get_put_frame (h : heap) (t x : loc) (k : string) (v : value) :
  is_nullish (get h t k) = true → is_nullish (get h x k) = false →
  get (put h t k v) x k = get h x k.
Proof. intros. unfold get. by rewrite get_prop_put_frame. Qed.

(** Writing to [t] the value that [x] resolves to leaves [x] resolving to it. *)
Lemma get_put_same (h : heap) (t x : loc) (k : string) :
  get (put h t k (get h x k)) x k = get h x k.
Proof.
  generalize (eq_refl (get h x k)). generalize (get h x k) at 1 3 4 as v.
  intros v. induction x as [x IH] using lt_wf_ind. intros Hx.
  destruct (decide (x = t)) as [->|Hne].
  - destruct (decide (t < length h)) as [Hv|Hv]; [by apply get_put_eq|].
    rewrite !get_invalid in *; [done | lia | rewrite length_put; lia].
  - rewrite get_unfold in Hx. rewrite get_unfold.
    unfold put at 1. rewrite list_lookup_alter_ne by done.
    destruct (h !! x) as [o|]; [|done].
    destruct (assoc k (props o)); [done|].
    destruct (proto o) as [l'|]; [|done].
    case_decide; [|done]. by apply IH.
Qed.

(** ** Enumeration *)

Lemma elem_of_enum_props (k : string) (seen : list string)
    (ps : list (string * prop)) :
  k ∈ enum_props seen ps ↔
  (k ∉ seen) ∧ ∃ p, assoc k ps = Some p ∧ p_enum p = true.
Proof.
  revert seen. induction ps as [|[k' p'] ps IH]; intros seen; simpl.
  - rewrite elem_of_nil. split; [done | by intros (_ & ? & ? & _)].
  - destruct (decide (k' ∈ seen)) as [Hin|Hin].
    + rewrite IH. case_decide; subst; [|done].
      split; [by intros [? _] | by intros [? _]].
    + rewrite elem_of_app, IH, not_elem_of_cons. case_decide; subst.
      * split.
        -- intros [Hk|[[? _] _]]; [|done].
           destruct (p_enum p') eqn:He; [eauto | by apply elem_of_nil in Hk].
        -- intros (_ & p & [= <-] & ->). left. apply list_elem_of_singleton.
           done.
      * split.
        -- intros [Hk|[[_ ?] ?]]; [|done].
           destruct (p_enum p'); [|by apply elem_of_nil in Hk].
           apply list_elem_of_singleton in Hk. congruence.
        -- intros [? ?]. right. split; [split; [congruence | done] | done].
Qed.

Lemma elem_of_enum_along (h : heap) (k : string) (seen : list string)
    (c : list loc) :
  k ∈ enum_along h seen c ↔
  (k ∉ seen) ∧ ∃ p, lookup_along h c k = Some p ∧ p_enum p = true.
Proof.
  revert seen. induction c as [|l c IH]; intros seen; simpl.
  - rewrite elem_of_nil. split; [done | by intros (_ & ? & ? & _)].
  - unfold own. destruct (h !! l) as [o|]; [|apply IH].
    rewrite elem_of_app, elem_of_enum_props, IH, not_elem_of_app.
    destruct (assoc k (props o)) as [p|] eqn:Hp.
    + split.
      * intros [(? & p' & [= <-] & ?)|[[Hk _] _]]; [eauto|].
        apply assoc_None in Hk. congruence.
      * intros (? & p' & [= <-] & ?). left. eauto.
    + apply assoc_None in Hp. split.
      * intros [(_ & ? & ? & _)|[[_ ?] ?]]; done.
      * intros [? ?]. by right.
Qed.

(** [for (k in o)] visits the names that resolve to an enumerable property. *)
Lemma elem_of_enum_keys (h : heap) (l : loc) (k : string) :
  k ∈ enum_keys h l ↔ ∃ p, get_prop h l k = Some p ∧ p_enum p = true.
Proof.
  unfold enum_keys, get_prop. rewrite elem_of_enum_along.
  split; [by intros [_ ?] | intros ?; split; [apply not_elem_of_nil | done]].
Qed.

Lemma NoDup_enum_props (seen : list string) (ps : list (string * prop)) :
  NoDup (enum_props seen ps).
Proof.
  revert seen. induction ps as [|[k' p'] ps IH]; intros seen; simpl.
  - constructor.
  - case_decide; [apply IH|].
    destruct (p_enum p'); simpl; [|apply IH].
    constructor; [|apply IH].
    rewrite elem_of_enum_props, not_elem_of_cons. by intros [[? _] _].
Qed.

Lemma NoDup_enum_along (h : heap) (seen : list string) (c : list loc) :
  NoDup (enum_along h seen c).
Proof.
  revert seen. induction c as [|l c IH]; intros seen; simpl.
  - constructor.
  - destruct (h !! l) as [o|]; [|apply IH].
    apply NoDup_app. split_and!; [apply NoDup_enum_props | | apply IH].
    intros k (_ & p & Hp & _)%elem_of_enum_props.
    rewrite elem_of_enum_along, not_elem_of_app.
    intros [[Hk _] _]. apply assoc_None in Hk. congruence.
Qed.

(** A name is visited once. *)
Lemma NoDup_enum_keys (h : heap) (l : loc) : NoDup (enum_keys h l).
Proof. apply NoDup_enum_along. Qed.

(** ** Loops *)

(** An invariant of the body is an invariant of the loop, however it ends. *)
Lemma for_in_invariant (P : heap → Prop)
    (body : heap → string → heap * res unit) (keys : list string) :
  (∀ h k h' r, k ∈ keys → P h → body h k = (h', r) → P h') →
  ∀ h h' r, P h → for_in body keys h = (h', r) → P h'.
Proof.
  induction keys as [|k ks IH]; intros Hstep h h' r HP; simpl.
  - by intros [= <- _].
  - destruct (body h k) as [h1 r1] eqn:Hb.
    assert (P h1) by (eapply Hstep; [apply list_elem_of_here | done..]).
    assert (Hrest : ∀ h k h' r, k ∈ ks → P h → body h k = (h', r) → P h').
    { intros ???? Hin. apply Hstep. by apply list_elem_of_further. }
    destruct r1 as [[]|m|]; [by apply IH | by intros [= <- _]..].
Qed.

(** A body that does nothing makes a loop that does nothing. *)
Lemma for_in_skip (body : heap → string → heap * res unit)
    (keys : list string) (h : heap) :
  (∀ k, k ∈ keys → body h k = (h, Ret tt)) →
  for_in body keys h = (h, Ret tt).
Proof.
  induction keys as [|k ks IH]; intros Hstep; simpl; [done|].
  rewrite Hstep by apply list_elem_of_here.
  apply IH. intros k' Hin. apply Hstep. by apply list_elem_of_further.
Qed.

(** A loop that returns ran its body on each name in turn. *)
Lemma for_in_at (body : heap → string → heap * res unit)
    (keys : list string) (k : string) (h h' : heap) :
  k ∈ keys → for_in body keys h = (h', Ret tt) →
  ∃ ks1 ks2 h1 h2,
    keys = ks1 ++ k :: ks2 ∧ for_in body ks1 h = (h1, Ret tt) ∧
    body h1 k = (h2, Ret tt) ∧ for_in body ks2 h2 = (h', Ret tt).
Proof.
  revert h. induction keys as [|k0 ks IH]; intros h Hin; simpl.
  - by apply elem_of_nil in Hin.
  - destruct (body h k0) as [h1 r1] eqn:Hb.
    destruct r1 as [[]|m|]; [|done..]. intros Hrest.
    destruct (decide (k0 = k)) as [->|Hne].
    + exists [], ks, h, h1. done.
    + apply elem_of_cons in Hin as [?|Hin]; [congruence|].
      destruct (IH h1 Hin Hrest) as (ks1 & ks2 & h2 & h3 & -> & H1 & H2 & H3).
      exists (k0 :: ks1), ks2, h2, h3. simpl. by rewrite Hb.
Qed.

(** ** interpolate *)

Lemma interpolate_null (args : list value) :
  interpolate VNull args = Ret VNull ∧ interpolate VUndef args = Ret VNull.
Proof. done. Qed.

(** C6, as the specification states it, fails: the number 0 is neither null
    nor undefined and prints as "0", yet the empty string stands for it. *)
Lemma interpolate_zero_is_empty :
  is_nullish (VNum (Fin 0)) = false
  ∧ to_str (VNum (Fin 0)) = Some "0"
  ∧ interpolate (VStr "{0}") [VNum (Fin 0)] = Ret (VStr "").
Proof. done. Qed.

(** A replacement text is read for the patterns of [replace]: [$$] is one
    dollar sign, and [$&] the placeholder itself. *)
Lemma interpolate_dollar :
  interpolate (VStr "{0}") [VStr "$$"] = Ret (VStr "$")
  ∧ interpolate (VStr "<{0}>") [VStr "$&"] = Ret (VStr "<{0}>").
Proof. done. Qed.

(** The arguments that have a string form in the model are the
    primitives. *)
Lemma arg_string_primitive (a : value) :
  primitive a = true ↔ is_Some (arg_string a).
Proof.
  unfold arg_string, primitive.
  destruct a as [| |b|[|z]|s|l].
  - split; [by eexists | done].
  - split; [by eexists | done].
  - destruct b; (split; [by eexists | done]).
  - split; [by eexists | done].
  - cbn [truthy to_str]. destruct (Z.eqb_spec z 0) as [->|Hz]; cbn [negb].
    + split; [by eexists | done].
    + destruct (Z.abs z <=? 2 ^ 53)%Z.
      * split; [by eexists | done].
      * split; [done | by intros [? ?]].
  - cbn [truthy to_str]. destruct (negb _); (split; [by eexists | done]).
  - split; [done | by intros [? ?]].
Qed.

Lemma with_no_dollar (args : list value) (strs : list string) :
  Forall2 (λ a r, arg_string a = Some r) args strs →
  Forall (λ r, no_dollar r = true) strs →
  Forall2 (λ a r, arg_string a = Some r ∧ no_dollar r = true) args strs.
Proof.
  induction 1 as [|a r args strs Ha _ IH]; intros Hd; [constructor|].
  apply Forall_cons in Hd as [Hr Hd]. constructor; auto.
Qed.

(** C6 (amended): [interpolate] returns null for a template that is null or
    undefined. For a template that is a string and arguments that are
    primitives, it fills the placeholders [{0}], [{1}], ... in this order,
    each time replacing only the first occurrence in the text so far by the
    string form of the argument, which is the empty string exactly when the
    argument is falsy (null, undefined, false, 0, NaN or the empty string);
    this for string forms that hold no dollar sign. *)
Theorem interpolate_fills (s : string) (args : list value) :
  Forall (λ a, primitive a = true) args →
  ∃ strs,
    Forall2 (λ a r, arg_string a = Some r
                    ∧ (if truthy a then to_str a = Some r else r = "")
                    ∧ (r = "" ↔ truthy a = false)) args strs
    ∧ (Forall (λ r, no_dollar r = true) strs →
       interpolate (VStr s) args = Ret (VStr (fill_from 0 s strs)))
    ∧ (∀ args', interpolate VNull args' = Ret VNull
                ∧ interpolate VUndef args' = Ret VNull)
    ∧ interpolate (VStr "{0} and {1}") [VStr "x"; VStr "y"]
      = Ret (VStr "x and y")
    ∧ interpolate (VStr "{0} {0}") [VStr "z"] = Ret (VStr "z {0}").
Proof.
  intros Hp.
  assert (∃ strs, Forall2 (λ a r, arg_string a = Some r) args strs)
    as [strs Hs].
  { induction Hp as [|a args Ha _ [strs IH]]; [by exists []|].
    apply arg_string_primitive in Ha as [r Hr].
    exists (r :: strs). by constructor. }
  exists strs. split_and!; try done.
  - eapply Forall2_impl; [exact Hs|]. intros a r Ha. split_and!.
    + done.
    + unfold arg_string in Ha. destruct (truthy a); congruence.
    + by apply arg_string_empty.
  - intros Hd. unfold interpolate. simpl.
    rewrite (interpolate_from_fill _ _ _ strs); [done|].
    by apply with_no_dollar.
Qed.

(** ** assertImplements *)

Lemma throw_error_unimplemented {A : Type} (h : heap) (p : string) :
  ∃ msg,
    throw_error (A:=A) E_unimplemented [VStr p] h = (h, Thrown msg)
    ∧ interpolate (VStr (ERROR_MESSAGES E_unimplemented)) [VStr p]
      = Ret (VStr msg)
    ∧ (no_dollar p = true →
       msg = "Interface property '" +:+ p +:+ "' is not implemented.").
Proof.
  unfold throw_error, interpolate. simpl. unfold arg_string. simpl.
  destruct (decide (p = "")) as [->|Hne].
  - eexists. split_and!; done.
  - rewrite bool_decide_eq_false_2 by done. simpl.
    eexists. split_and!; [done..|].
    intros Hp. unfold replace. simpl.
    by rewrite get_substitution_no_dollar.
Qed.

Lemma for_in_assert (h : heap) (c : loc) (keys : list string) :
  for_in (assert_prop (VObj c)) keys h =
  match find (λ p, is_nullish (get h c p)) keys with
  | Some p => throw_error E_unimplemented [VStr p] h
  | None => (h, Ret tt)
  end.
Proof.
  induction keys as [|k ks IH]; simpl; [done|].
  unfold assert_prop at 1. simpl.
  destruct (is_nullish (get h c k)); [|done].
  destruct (throw_error_unimplemented (A:=unit) h k) as (msg & -> & _). done.
Qed.


(** ** extend *)

Lemma hasOwnProperty_builtin (h : heap) (l : loc) (k : string) :
  builtin_hasOwnProperty h l → hasOwnProperty h l k = Ret (has_own h l k).
Proof. unfold builtin_hasOwnProperty, hasOwnProperty. by intros ->. Qed.

(** The loop of [extend] only looks. *)
Lemma extend_prop_heap (p : loc) (h h' : heap) (k : string) (r : res unit) :
  extend_prop p h k = (h', r) → h' = h.
Proof.
  unfold extend_prop, throw_error. repeat case_match; by intros [= <- _].
Qed.

Lemma extend_loop_heap (p : loc) (keys : list string) (h h' : heap)
    (r : res unit) :
  for_in (extend_prop p) keys h = (h', r) → h' = h.
Proof.
  apply (for_in_invariant (λ hc, hc = h)); [|done].
  intros hc k hc' r' _ -> Hstep. by apply extend_prop_heap in Hstep.
Qed.

Lemma code_of_le (h h' : heap) (v : value) (cd : code) :
  heap_le h h' → code_of h v = Some cd → code_of h' v = Some cd.
Proof.
  intros Hle. destruct v as [| |?|?|?|l]; try done. simpl.
  destruct (h !! l) as [o|] eqn:Hl; [|done]. intros Hfn.
  destruct (Hle _ _ Hl) as (o' & -> & _ & ->). done.
Qed.

(** A function keeps the built-in [apply] when objects are added. *)
Lemma builtin_apply_app (h : heap) (os : list obj) (f : loc) :
  f < length h → builtin_apply h f → builtin_apply (h ++ os) f.
Proof.
  intros Hf Ha. unfold builtin_apply in *.
  rewrite (get_agree h (h ++ os))
    by (first [apply heap_le_app | apply same_at_app | done]).
  by apply (code_of_le h), Ha; [apply heap_le_app].
Qed.

Lemma code_of_put (h : heap) (t : loc) (k : string) (v w : value) :
  code_of (put h t k v) w = code_of h w.
Proof.
  destruct w as [| |?|?|?|l]; try done. unfold code_of, put.
  rewrite list_lookup_alter. case_decide; subst; by destruct (h !! l).
Qed.

(** C10 (amended): when [extend] throws one of its own errors, the heap is
    as it was before the call. One throw comes after a write: the engine's
    TypeError at line 182, for a subclass whose [prototype] property is
    read-only, when line 179 has set [parent] already. *)
Theorem extend_throws_unchanged (h h' : heap) (subclass superclass : value)
    (msg : string) :
  extend h subclass superclass = (h', Thrown msg) →
  h' = h
  ∨ ∃ s, subclass = VObj s ∧ read_only_prototype h s = true
         ∧ msg = TypeError Read_only
         ∧ h' = put h s "parent" superclass.
Proof.
  unfold extend, throw_error. intros Hext.
  repeat case_match; simplify_eq; try (by left);
    match goal with
    | H : for_in _ _ _ = _ |- _ => apply extend_loop_heap in H; subst
    end; try (by left).
  right. eexists. split_and!; [done | | done..].
  match goal with
  | H : read_only_prototype _ _ = true |- _ =>
      unfold read_only_prototype in H; rewrite code_of_put in H
  end.
  done.
Qed.

(** ** unBindAt *)

Lemma call_fuel_enough (h : heap) (n m : nat) (f : loc) (this : value)
    (args : list value) :
  f < n → f < m → call_fuel n h f this args = call_fuel m h f this args.
Proof.
  revert m f this args. induction n as [|n IH]; intros m f this args Hn Hm;
    [lia|].
  destruct m as [|m]; [lia|]. simpl.
  destruct (h !! f) as [o|]; [|done].
  destruct (fn o) as [[id|object func pos| | |id]|]; try done.
  destruct (code_of h (get h func "apply")) as [[]|]; try done.
  case_decide; [|done]. apply IH; lia.
Qed.

(** Calling a delegate is calling its function on [object], with the
    receiver spliced into the arguments, where the function's [apply] is the
    built-in one ... *)
Lemma call_delegate (h : heap) (d f : loc) (o : obj) (object this : value)
    (pos : nat) (args : list value) :
  h !! d = Some o → fn o = Some (Delegate object f pos) → f < d →
  builtin_apply h f →
  call h d this args = call h f object (splice pos this args).
Proof.
  intros Hd Hf Hlt Ha. unfold call at 1. simpl. rewrite Hd, Hf, Ha.
  rewrite decide_True by done. apply call_fuel_enough; lia.
Qed.

(** ... and the engine's TypeError where it is no function. *)
Lemma call_delegate_no_apply (h : heap) (d f : loc) (o : obj)
    (object this : value) (pos : nat) (args : list value) :
  h !! d = Some o → fn o = Some (Delegate object f pos) →
  code_of h (get h f "apply") = None →
  call h d this args = (h, Thrown (TypeError Not_a_function)).
Proof.
  intros Hd Hf Ha. unfold call. simpl. by rewrite Hd, Hf, Ha.
Qed.

Lemma names_function_resolve (h : heap) (object func : value) (f : loc) :
  names_function h object func f →
  is_nullish func = false
  ∧ resolve_func h object func = Some (VObj f)
  ∧ is_function h (VObj f) = true.
Proof.
  intros [Hf Hc].
  assert (is_function h (VObj f) = true) as Hfun.
  { apply is_function_callable. eauto. }
  destruct Hf as [->|(o & s & -> & -> & Hg)]; [done|].
  split_and!; [done| |done]. simpl. by rewrite Hg, Hfun.
Qed.

(** With a number that is not negative, or nothing, for [thisArgNumber],
    [unBindAt] makes the delegate. *)
Lemma unBindAt_returns (h : heap) (object func thisArgNumber : value)
    (f : loc) (n : nat) :
  is_nullish object = false → names_function h object func f →
  thisArgNumber = VNum (Fin (Z.of_nat n))
  ∨ (is_nullish thisArgNumber = true ∧ n = 0) →
  unBindAt h object func thisArgNumber
  = (h ++ new_function (length h) (Delegate object f n) 0,
     Ret (VObj (length h))).
Proof.
  intros Ho Hf Ht.
  destruct (names_function_resolve _ _ _ _ Hf) as (Hn & Hr & Hfun).
  unfold unBindAt. rewrite Ho, Hn, Hr, Hfun.
  assert (resolve_position h f thisArgNumber = Some (VNum (Fin (Z.of_nat n))))
    as ->.
  { unfold resolve_position. by destruct Ht as [->|[-> ->]]. }
  simpl. destruct (Z.of_nat n <? 0)%Z eqn:Hz; [lia|].
  by rewrite Nat2Z.id.
Qed.

Lemma splice_length (n : nat) (R : value) (A : list value) :
  length (splice n R A) = S (length A).
Proof.
  unfold splice. rewrite length_app. simpl.
  rewrite length_take, length_drop. lia.
Qed.

Lemma splice_before (n i : nat) (R : value) (A : list value) :
  i < n → i < length A → splice n R A !! i = A !! i.
Proof.
  intros Hn HA. unfold splice.
  rewrite lookup_app_l by (rewrite length_take; lia).
  by apply lookup_take_lt.
Qed.

Lemma splice_at (n : nat) (R : value) (A : list value) :
  n ≤ length A → splice n R A !! n = Some R.
Proof.
  intros Hn. unfold splice. apply list_lookup_middle.
  rewrite length_take. lia.
Qed.

Lemma splice_after (n i : nat) (R : value) (A : list value) :
  n ≤ i → splice n R A !! S i = A !! i.
Proof.
  intros Hn. unfold splice. destruct (decide (n ≤ length A)) as [HA|HA].
  - rewrite lookup_app_r by (rewrite length_take; lia).
    rewrite length_take, Nat.min_l by done.
    replace (S i - n) with (S (i - n)) by lia. simpl.
    rewrite lookup_drop. f_equal. lia.
  - rewrite take_ge, drop_ge by lia.
    rewrite !lookup_ge_None_2; [done | lia |].
    rewrite length_app. simpl. lia.
Qed.

Lemma splice_beyond (n : nat) (R : value) (A : list value) :
  length A ≤ n → splice n R A = A ++ [R].
Proof. intros Hn. unfold splice. by rewrite take_ge, drop_ge. Qed.

(** C1 (amended): the delegate that [unBindAt(object, func, n)] returns,
    called on a receiver [R] with arguments [A] while [func.apply] is the
    built-in [apply], does what [func] does when applied to [object] and to
    [A] with [R] spliced in at [n]: the arguments before [n] keep their
    place, [R] stands at [n], and the arguments from [n] on move one place
    to the right ([R] comes last when [A] has fewer than [n] elements).
    While [func.apply] is no function, the call throws the engine's
    TypeError and [func] does not run. *)
Theorem unBindAt_delegate (h : heap) (object func : value) (f : loc)
    (n : nat) :
  is_nullish object = false → names_function h object func f →
  ∃ os,
    unBindAt h object func (VNum (Fin (Z.of_nat n)))
    = (h ++ os, Ret (VObj (length h)))
    ∧ ∀ h' R A, heap_le (h ++ os) h' →
        (builtin_apply h' f →
         call h' (length h) R A = call h' f object (splice n R A))
        ∧ (code_of h' (get h' f "apply") = None →
           call h' (length h) R A = (h', Thrown (TypeError Not_a_function)))
        ∧ length (splice n R A) = S (length A)
        ∧ (∀ i, i < n → i < length A → splice n R A !! i = A !! i)
        ∧ (n ≤ length A → splice n R A !! n = Some R)
        ∧ (∀ i, n ≤ i → splice n R A !! S i = A !! i)
        ∧ (length A ≤ n → splice n R A = A ++ [R]).
Proof.
  intros Ho Hf. eexists. split.
  - apply unBindAt_returns; [done.. | by left].
  - intros h' R A Hle.
    destruct (Hle (length h)
      (Obj [("length", Prop_ (VNum (Fin (Z.of_nat 0))) false);
            ("prototype", Prop_ (VObj (S (length h))) false)]
         FunctionPrototype (Some (Delegate object f n))))
      as (o' & Ho' & _ & Hfn).
    { by apply list_lookup_middle. }
    split_and!.
    + intros Ha. apply (call_delegate h' _ f o'); [done.. | | done].
      apply is_callable_valid, Hf.
    + intros Ha. by apply (call_delegate_no_apply h' _ f o' object _ n).
    + apply splice_length.
    + intros i. apply splice_before.
    + apply splice_at.
    + intros i. apply splice_after.
    + apply splice_beyond.
Qed.

(** C7 (amended): for [LAST_ARG] the position is the arity minus one, where
    the arity is [_applyLength] when that is truthy and [length] otherwise;
    [unBindAt] then does what it does for that number. *)
Theorem unBindAt_LAST_ARG (h : heap) (object func : value) (f : loc)
    (k : Z) :
  names_function h object func f →
  to_num (js_or (get h f "_applyLength") (get h f "length")) = Some (Fin k) →
  resolve_position h f (VObj LAST_ARG) = Some (VNum (Fin (k - 1)))
  ∧ unBindAt h object func (VObj LAST_ARG)
    = unBindAt h object func (VNum (Fin (k - 1)))
  ∧ js_or (get h f "_applyLength") (get h f "length")
    = (if truthy (get h f "_applyLength") then get h f "_applyLength"
       else get h f "length").
Proof.
  intros Hf Hk.
  destruct (names_function_resolve _ _ _ _ Hf) as (Hn & Hr & Hfun).
  assert (resolve_position h f (VObj LAST_ARG) = Some (VNum (Fin (k - 1))))
    as Hpos.
  { unfold resolve_position. simpl. rewrite decide_True by done.
    unfold minus_one. by rewrite Hk. }
  split_and!; [done| |done].
  unfold unBindAt. rewrite Hn, Hr, Hfun, Hpos.
  unfold resolve_position. done.
Qed.

(** ** bless *)

Lemma frame_refl (h : heap) : frame h h.
Proof. by intros x k _. Qed.

Lemma frame_trans (h1 h2 h3 : heap) : frame h1 h2 → frame h2 h3 → frame h1 h3.
Proof.
  intros H12 H23 x k Hx. rewrite <- (H12 x k Hx). apply H23.
  by rewrite (H12 x k Hx).
Qed.

Lemma frame_app (h : heap) (os : list obj) : frame h (h ++ os).
Proof.
  intros x k Hx. destruct (decide (x < length h)) as [Hv|Hv].
  - apply get_agree; [apply heap_le_app | apply same_at_app | done].
  - rewrite get_invalid in Hx by lia. done.
Qed.

Lemma frame_put (h : heap) (t : loc) (k : string) (v : value) :
  is_nullish (get h t k) = true → frame h (put h t k v).
Proof.
  intros Ht x k' Hx. destruct (decide (k = k')) as [<-|Hne].
  - by apply get_put_frame.
  - by apply get_put_ne.
Qed.

(** [unBindAt] throws and leaves the heap alone, or appends the delegate. *)
Lemma unBindAt_cases (h h' : heap) (object func thisArgNumber : value)
    (r : res value) :
  unBindAt h object func thisArgNumber = (h', r) →
  (h' = h ∧ ∀ v, r ≠ Ret v)
  ∨ ∃ f t z,
      resolve_func h object func = Some (VObj f)
      ∧ is_function h (VObj f) = true
      ∧ resolve_position h f thisArgNumber = Some t
      ∧ to_num t = Some (Fin z) ∧ (0 ≤ z)%Z
      ∧ h' = h ++ new_function (length h)
                    (Delegate object f (Z.to_nat z)) 0
      ∧ r = Ret (VObj (length h)).
Proof.
  unfold unBindAt, throw_error.
  repeat case_match; intros [= <- <-]; try (by left).
  right. do 3 eexists. split_and!; try done. lia.
Qed.

(** What one round of the loop of [bless] does to the heap. *)
Lemma bless_prop_cases (h h' : heap) (t b : loc) (inWhichArg : value)
    (k : string) (r : res unit) :
  bless_prop (VObj t) (VObj b) inWhichArg h k = (h', r) →
  (h' = h ∧ (r = Ret tt → is_nullish (get h t k) = false))
  ∨ (is_nullish (get h t k) = true ∧ is_function h (get h b k) = false
     ∧ h' = put h t k (get h b k) ∧ r = Ret tt)
  ∨ (is_nullish (get h t k) = true ∧ r = Ret tt
     ∧ ∃ f pos,
         get h b k = VObj f ∧ is_callable h f = true
         ∧ unBindAt h (VObj b) (VStr k) inWhichArg
           = (h ++ new_function (length h) (Delegate (VObj b) f pos) 0,
              Ret (VObj (length h)))
         ∧ h' = put (h ++ new_function (length h)
                            (Delegate (VObj b) f pos) 0)
                  t k (VObj (length h))).
Proof.
  unfold bless_prop.
  destruct (is_nullish (get h t k)) eqn:Hn; [|intros [= <- <-]; by left].
  destruct (is_function h (get h b k)) eqn:Hf;
    [|intros [= <- <-]; right; by left].
  destruct (unBindAt h (VObj b) (VStr k) inWhichArg) as [h1 r1] eqn:Hu.
  destruct (unBindAt_cases _ _ _ _ _ _ Hu)
    as [[-> Hr]|(f & t' & z & Hres & Hfun & Hpos & Hnum & Hz & -> & ->)].
  - destruct r1 as [v|m|]; [by destruct (Hr v) | |];
      intros [= <- <-]; left; done.
  - intros [= <- <-]. right; right. split_and!; [done..|].
    simpl in Hres. rewrite Hf in Hres. injection Hres as Hres.
    apply is_function_callable in Hfun as (f' & [= <-] & Hc).
    exists f, (Z.to_nat z). done.
Qed.

(** A round of the loop of [bless] extends the heap and keeps what was
    there and not null. *)
Lemma bless_prop_frame (h h' : heap) (t b : loc) (inWhichArg : value)
    (k : string) (r : res unit) :
  t < length h →
  bless_prop (VObj t) (VObj b) inWhichArg h k = (h', r) →
  heap_le h h' ∧ frame h h' ∧ ∀ k', k ≠ k' → same_at k' h h'.
Proof.
  intros Ht Hb. destruct (bless_prop_cases _ _ _ _ _ _ _ Hb)
    as [[-> _]|[(Hn & _ & -> & _)|(Hn & _ & f & pos & _ & _ & _ & ->)]].
  - split_and!; [apply heap_le_refl | apply frame_refl |].
    intros k' _. apply same_at_refl.
  - split_and!; [apply heap_le_put | by apply frame_put |].
    intros k' Hne. by apply same_at_put_ne.
  - set (h1 := h ++ new_function _ _ _). split_and!.
    + eapply heap_le_trans; [apply heap_le_app | apply heap_le_put].
    + eapply frame_trans; [apply frame_app|]. apply frame_put.
      unfold h1. rewrite (get_agree h);
        [done | apply heap_le_app | apply same_at_app | done].
    + intros k' Hne. eapply same_at_trans;
        [apply heap_le_app | apply same_at_app | by apply same_at_put_ne].
Qed.

Lemma bless_loop_frame (t b : loc) (inWhichArg : value)
    (keys : list string) (h h' : heap) (r : res unit) :
  t < length h →
  for_in (bless_prop (VObj t) (VObj b) inWhichArg) keys h = (h', r) →
  heap_le h h' ∧ frame h h'.
Proof.
  intros Ht.
  apply (for_in_invariant (λ hc, heap_le h hc ∧ frame h hc)).
  - intros hc k hc' r' _ [Hle Hfr] Hb.
    destruct (bless_prop_frame hc hc' t b inWhichArg k r') as (? & ? & _);
      [apply heap_le_length in Hle; lia | done |].
    split; [by eapply heap_le_trans | by eapply frame_trans].
  - split; [apply heap_le_refl | apply frame_refl].
Qed.

Lemma bless_unmodelled_target (blessee benediction inWhichArg : value)
    (keys : list string) (h h' : heap) (r : res unit) :
  (∀ t, blessee ≠ VObj t) ∨ (∀ b, benediction ≠ VObj b) →
  for_in (bless_prop blessee benediction inWhichArg) keys h = (h', r) →
  h' = h.
Proof.
  intros Ht. destruct keys as [|k ks]; simpl; [by intros [= <- _]|].
  unfold bless_prop.
  destruct blessee as [| |?|?|?|t]; try (by intros [= <- _]).
  destruct benediction as [| |?|?|?|b]; try (by intros [= <- _]).
  destruct Ht as [Ht|Ht]; [by destruct (Ht t) | by destruct (Ht b)].
Qed.

(** C3: [bless] overwrites no property that is there and not null: whatever
    resolved, on any object and so on [blessee] and on its prototype, to a
    value other than null and undefined before the call resolves to the same
    value after it, however the call ends. *)
Theorem bless_keeps_present (h h' : heap)
    (blessee benediction inWhichArg : value) (r : res value)
    (x : loc) (p : string) :
  (∀ t, objOrPrototype h blessee = VObj t → t < length h) →
  bless h blessee benediction inWhichArg = (h', r) →
  is_nullish (get h x p) = false →
  get h' x p = get h x p.
Proof.
  intros Ht. unfold bless, throw_error.
  destruct (is_nullish benediction); [repeat case_match; by intros [= <- _]|].
  destruct (is_nullish blessee); [repeat case_match; by intros [= <- _]|].
  destruct (enum_of h _) as [keys|]; [|by intros [= <- _]].
  destruct (for_in _ keys h) as [h1 r1] eqn:Hloop.
  intros Hr. assert (h' = h1) as -> by (by destruct r1; injection Hr).
  clear Hr. intros Hx.
  destruct (objOrPrototype h blessee) as [| |?|?|?|t] eqn:Hres;
    try (apply bless_unmodelled_target in Hloop; [by subst | by left]).
  destruct (objOrPrototype h benediction) as [| |?|?|?|b] eqn:Hresb;
    try (apply bless_unmodelled_target in Hloop; [by subst | by right]).
  destruct (bless_loop_frame _ _ _ _ _ _ _ (Ht t eq_refl) Hloop) as [_ Hfr].
  by apply Hfr.
Qed.

Lemma enum_keys_valid (h : heap) (l : loc) (k : string) :
  k ∈ enum_keys h l → l < length h.
Proof.
  intros (p & Hp & _)%elem_of_enum_keys.
  destruct (decide (l < length h)) as [|Hn]; [done|].
  rewrite get_prop_invalid in Hp by lia. done.
Qed.

(** With a number that is not negative, or nothing, for [inWhichArg], the
    loop of [bless] runs to its end. *)
Lemma bless_loop_returns (t b : loc) (inWhichArg : value)
    (keys : list string) (h : heap) :
  (∃ n : nat, inWhichArg = VNum (Fin (Z.of_nat n)))
  ∨ is_nullish inWhichArg = true →
  ∃ h', for_in (bless_prop (VObj t) (VObj b) inWhichArg) keys h
        = (h', Ret tt).
Proof.
  intros Harg. revert h. induction keys as [|k ks IH]; intros h; simpl;
    [by eexists|].
  unfold bless_prop at 1.
  destruct (is_nullish (get h t k)); [|apply IH].
  destruct (is_function h (get h b k)) eqn:Hf; [|apply IH].
  apply is_function_callable in Hf as (f & Hg & Hc).
  assert (∃ n, unBindAt h (VObj b) (VStr k) inWhichArg
               = (h ++ new_function (length h) (Delegate (VObj b) f n) 0,
                  Ret (VObj (length h)))) as [n ->].
  { destruct Harg as [[n ->]|Hn].
    - exists n. apply unBindAt_returns; [done | | by left].
      split; [right; by exists b, k | done].
    - exists 0. apply unBindAt_returns; [done | | by right].
      split; [right; by exists b, k | done]. }
  apply IH.
Qed.

(** The rounds for other names leave the name [k] alone. *)
Lemma bless_loop_other (t b : loc) (inWhichArg : value) (k : string)
    (keys : list string) (h h' : heap) (r : res unit) :
  t < length h → k ∉ keys →
  for_in (bless_prop (VObj t) (VObj b) inWhichArg) keys h = (h', r) →
  heap_le h h' ∧ same_at k h h'.
Proof.
  intros Ht Hk.
  apply (for_in_invariant (λ hc, heap_le h hc ∧ same_at k h hc)).
  - intros hc k' hc' r' Hin [Hle Hsame] Hb.
    destruct (bless_prop_frame hc hc' t b inWhichArg k' r') as (? & _ & Hs);
      [apply heap_le_length in Hle; lia | done |].
    split; [by eapply heap_le_trans|].
    eapply same_at_trans; [done.. |]. apply Hs. by intros ->.
  - split; [apply heap_le_refl | apply same_at_refl].
Qed.


Lemma for_in_cons (body : heap → string → heap * res unit) (k : string)
    (ks : list string) (h : heap) :
  for_in body (k :: ks) h =
  match body h k with
  | (h', Ret _) => for_in body ks h'
  | (h', Thrown m) => (h', Thrown m)
  | (h', Unmodelled) => (h', Unmodelled)
  end.
Proof. done. Qed.

Lemma settled_skip (h : heap) (t b : loc) (inWhichArg : value) (k : string) :
  settled h t b k →
  bless_prop (VObj t) (VObj b) inWhichArg h k = (h, Ret tt).
Proof.
  unfold bless_prop. intros [Hn|(p & Ho & Hb)]; [by rewrite Hn|].
  rewrite (get_own _ _ _ _ Ho), Hb.
  destruct (is_nullish (p_val p)) eqn:Hn; [|done].
  by rewrite is_function_nullish, (put_id _ _ _ _ Ho).
Qed.

Lemma bless_prop_settles (h h' : heap) (t b : loc) (inWhichArg : value)
    (k : string) :
  t < length h →
  bless_prop (VObj t) (VObj b) inWhichArg h k = (h', Ret tt) →
  settled h' t b k.
Proof.
  intros Ht Hb. destruct (bless_prop_cases _ _ _ _ _ _ _ Hb)
    as [[-> Hn]|[(_ & _ & -> & _)|(_ & _ & f & pos & _ & _ & _ & ->)]].
  - left. by apply Hn.
  - right. eexists. split; [by apply own_put_eq|]. simpl. apply get_put_same.
  - left. rewrite get_put_eq; [done|]. rewrite length_app. lia.
Qed.

Lemma settled_other (h h' : heap) (t b : loc) (k : string) :
  t < length h → b < length h → heap_le h h' → same_at k h h' →
  settled h t b k → settled h' t b k.
Proof.
  intros Ht Hb Hle Hs [Hn|(p & Ho & Hg)].
  - left. by rewrite (get_agree h h').
  - right. exists p. by rewrite (Hs t Ht), (get_agree h h').
Qed.

(** When the loop of [bless] has run to its end, every name it visited is
    settled. *)
Lemma bless_loop_settles (t b : loc) (inWhichArg : value)
    (keys : list string) (h h' : heap) :
  NoDup keys → t < length h → b < length h →
  for_in (bless_prop (VObj t) (VObj b) inWhichArg) keys h = (h', Ret tt) →
  ∀ k, k ∈ keys → settled h' t b k.
Proof.
  revert h. induction keys as [|k0 ks IH]; intros h Hnd Ht Hb.
  - intros _ k Hk. by apply elem_of_nil in Hk.
  - apply NoDup_cons in Hnd as [Hk0 Hnd]. rewrite for_in_cons.
    destruct (bless_prop (VObj t) (VObj b) inWhichArg h k0) as [h1 r1] eqn:Hstep.
    destruct r1 as [[]|m|]; [|done..]. intros Hrest k Hk.
    destruct (bless_prop_frame _ _ _ _ _ _ _ Ht Hstep) as (Hle & _ & _).
    pose proof (heap_le_length _ _ Hle) as Hlen.
    assert (t < length h1) as Ht1 by lia.
    assert (b < length h1) as Hb1 by lia.
    apply elem_of_cons in Hk as [->|Hk]; [|by eapply (IH h1 Hnd Ht1 Hb1 Hrest)].
    destruct (bless_loop_other _ _ _ k0 _ _ _ _ Ht1 Hk0 Hrest) as [Hle' Hs'].
    apply (settled_other h1); [done..|].
    exact (bless_prop_settles _ _ _ _ _ _ Ht Hstep).
Qed.

(** The loop of [bless] adds no name to the enumeration of [b]. *)
Lemma bless_loop_keys (t b : loc) (inWhichArg : value)
    (keys : list string) (h h' : heap) (r : res unit) (k : string) :
  t < length h → b < length h →
  for_in (bless_prop (VObj t) (VObj b) inWhichArg) keys h = (h', r) →
  k ∈ enum_keys h' b → k ∈ keys ∨ k ∈ enum_keys h b.
Proof.
  intros Ht Hb Hloop Hk. destruct (decide (k ∈ keys)) as [|Hn]; [by left|].
  right. destruct (bless_loop_other _ _ _ k _ _ _ _ Ht Hn Hloop) as [Hle Hs].
  apply elem_of_enum_keys. rewrite <- (get_prop_agree h h') by done.
  by apply elem_of_enum_keys.
Qed.

Lemma is_function_le (h h' : heap) (l : loc) :
  heap_le h h' → l < length h →
  is_function h' (VObj l) = is_function h (VObj l).
Proof.
  intros Hle Hl. unfold is_function. simpl.
  by rewrite (is_callable_le h h').
Qed.

Lemma is_function_valid (h : heap) (l : loc) :
  is_function h (VObj l) = true → l < length h.
Proof.
  intros (l' & [= <-] & Hc)%is_function_callable.
  by apply is_callable_valid.
Qed.

(** What is null or undefined on the source stays so under [bless]. *)
Lemma bless_loop_nullish_source (t b : loc) (inWhichArg : value)
    (keys : list string) (h h' : heap) (r : res unit) (k : string) :
  t < length h → b < length h →
  for_in (bless_prop (VObj t) (VObj b) inWhichArg) keys h = (h', r) →
  is_nullish (get h b k) = true → is_nullish (get h' b k) = true.
Proof.
  intros Ht Hb Hloop Hn.
  enough (t < length h' ∧ b < length h' ∧ is_nullish (get h' b k) = true)
    as (_ & _ & ?) by done.
  revert Hloop.
  apply (for_in_invariant
           (λ hc, t < length hc ∧ b < length hc
                  ∧ is_nullish (get hc b k) = true)); [|done].
  intros hc k' hc' r' _ (Hvt & Hvb & Hnn) Hstep.
  destruct (bless_prop_frame _ _ _ _ _ _ _ Hvt Hstep) as (Hle & _ & Hs).
  pose proof (heap_le_length _ _ Hle). split_and!; [lia..|].
  destruct (decide (k' = k)) as [->|Hne].
  - destruct (bless_prop_cases _ _ _ _ _ _ _ Hstep)
      as [[-> _]|[(_ & _ & -> & _)|(_ & _ & f & pos & Hg & _)]].
    + done.
    + by rewrite get_put_same.
    + by rewrite Hg in Hnn.
  - by rewrite (get_agree hc hc') by auto.
Qed.

(** [bless] does not change what its source resolves to. *)
Lemma bless_source_stable (t b : loc) (benediction inWhichArg : value)
    (keys : list string) (h h' : heap) (r : res unit) :
  t < length h → b < length h →
  objOrPrototype h benediction = VObj b →
  for_in (bless_prop (VObj t) (VObj b) inWhichArg) keys h = (h', r) →
  objOrPrototype h' benediction = VObj b.
Proof.
  intros Ht Hb Hres Hloop.
  destruct benediction as [| |?|?|?|l]; try done.
  destruct (bless_loop_frame _ _ _ _ _ _ _ Ht Hloop) as [Hle Hfr].
  unfold objOrPrototype in *.
  destruct (is_function h (VObj l)) eqn:Hf; simpl in Hres.
  - pose proof (is_function_valid _ _ Hf) as Hl.
    rewrite (is_function_le h h'), Hf by done. simpl.
    destruct (is_nullish (get h l "prototype")) eqn:Hn; simpl in Hres.
    + injection Hres as ->.
      by rewrite (bless_loop_nullish_source _ _ _ _ _ _ _ _ Ht Hb Hloop Hn).
    + by rewrite (Hfr l "prototype" Hn), Hn.
  - injection Hres as ->. by rewrite (is_function_le h h'), Hf.
Qed.

(** The same for the target, when it is not a function without prototype. *)
Lemma bless_target_stable (t b : loc) (blessee inWhichArg : value)
    (keys : list string) (h h' : heap) (r : res unit) :
  t < length h →
  (∀ l, blessee = VObj l → is_function h blessee = true →
        is_nullish (get h l "prototype") = false) →
  objOrPrototype h blessee = VObj t →
  for_in (bless_prop (VObj t) (VObj b) inWhichArg) keys h = (h', r) →
  objOrPrototype h' blessee = VObj t.
Proof.
  intros Ht Hst Hres Hloop.
  destruct blessee as [| |?|?|?|l]; try done.
  destruct (bless_loop_frame _ _ _ _ _ _ _ Ht Hloop) as [Hle Hfr].
  unfold objOrPrototype in *.
  destruct (is_function h (VObj l)) eqn:Hf; simpl in Hres.
  - pose proof (is_function_valid _ _ Hf) as Hl.
    rewrite (is_function_le h h'), Hf by done. simpl.
    specialize (Hst l eq_refl eq_refl). rewrite Hst in Hres. simpl in Hres.
    by rewrite (Hfr l "prototype" Hst), Hst.
  - injection Hres as ->. by rewrite (is_function_le h h'), Hf.
Qed.

(** A second call of [bless] with the arguments of a first call that
    returned changes nothing and returns, provided [blessee] resolves after
    the first call to the object it resolved to before. *)
Lemma bless_again_returned (h h1 : heap)
    (blessee benediction inWhichArg : value) :
  (∀ t, objOrPrototype h blessee = VObj t → t < length h) →
  bless h blessee benediction inWhichArg = (h1, Ret VUndef) →
  objOrPrototype h1 blessee = objOrPrototype h blessee →
  bless h1 blessee benediction inWhichArg = (h1, Ret VUndef).
Proof.
  intros Hvt Hcall Hstable. generalize Hcall. unfold bless at 1, throw_error.
  destruct (is_nullish benediction) eqn:Hnb;
    [repeat case_match; by intros [=]|].
  destruct (is_nullish blessee) eqn:Hnt; [repeat case_match; by intros [=]|].
  destruct (enum_of h (objOrPrototype h benediction)) as [keys|] eqn:Hkeys;
    [|done].
  destruct (for_in _ keys h) as [h0 r0] eqn:Hloop.
  destruct r0 as [[]|m|]; [|done..]. intros [= ->].
  destruct (objOrPrototype h blessee) as [| |?|?|?|t] eqn:Hrt;
    try (apply bless_unmodelled_target in Hloop; [by subst | by left]).
  destruct (objOrPrototype h benediction) as [| |?|?|?|b] eqn:Hrb;
    try (apply bless_unmodelled_target in Hloop; [by subst | by right]).
  injection Hkeys as <-. specialize (Hvt t eq_refl).
  destruct (decide (b < length h)) as [Hvb|Hvb].
  - unfold bless. rewrite Hnb, Hnt, Hstable.
    rewrite (bless_source_stable _ _ _ _ _ _ _ _ Hvt Hvb Hrb Hloop). simpl.
    rewrite for_in_skip; [done|]. intros k Hk. apply settled_skip.
    apply (bless_loop_settles _ _ _ _ _ _ (NoDup_enum_keys h b) Hvt Hvb Hloop).
    by destruct (bless_loop_keys _ _ _ _ _ _ _ _ Hvt Hvb Hloop Hk).
  - destruct (enum_keys h b) as [|k ks] eqn:Hk.
    + injection Hloop as <-. done.
    + assert (k ∈ enum_keys h b) as Hin by (rewrite Hk; apply list_elem_of_here).
      apply enum_keys_valid in Hin. lia.
Qed.

(** ** mixin *)

Lemma grown_at_refl (c : loc) (h : heap) : grown_at c h h.
Proof. split_and!; [done.. | apply heap_le_refl | done]. Qed.

Lemma grown_at_trans (c : loc) (h1 h2 h3 : heap) :
  grown_at c h1 h2 → grown_at c h2 h3 → grown_at c h1 h3.
Proof.
  intros (Hl1 & Ho1 & Hle1 & Hp1) (Hl2 & Ho2 & Hle2 & Hp2). split_and!.
  - congruence.
  - intros l Hl. by rewrite Ho2, Ho1.
  - by eapply heap_le_trans.
  - intros k p Hk. by apply Hp2, Hp1.
Qed.

Lemma grown_at_put (c : loc) (h : heap) (k : string) (v : value) :
  own h c k = None → grown_at c h (put h c k v).
Proof.
  intros Hk. split_and!.
  - apply length_put.
  - intros l Hl. unfold put. by rewrite list_lookup_alter_ne.
  - apply heap_le_put.
  - intros k' p Hk'. rewrite own_put_ne_key; [done | congruence].
Qed.

(** A name that the child did not gain resolves everywhere as before. *)
Lemma grown_at_same (c : loc) (h h' : heap) (k : string) :
  grown_at c h h' → own h' c k = own h c k → same_at k h h'.
Proof.
  intros (_ & Ho & _ & _) Hk l _. destruct (decide (l = c)) as [->|Hne];
    [done|]. unfold own. by rewrite Ho.
Qed.

Lemma grown_at_get_prop (c : loc) (h h' : heap) (k : string) (l : loc) :
  grown_at c h h' → own h' c k = own h c k →
  get_prop h' l k = get_prop h l k.
Proof.
  intros Hg Hk. destruct (decide (l < length h)) as [Hl|Hl].
  - apply get_prop_agree; [apply Hg | by eapply grown_at_same | done].
  - destruct Hg as (Hlen & _). rewrite !get_prop_invalid; [done | lia..].
Qed.

Lemma grown_at_is_function (c : loc) (h h' : heap) (v : value) :
  grown_at c h h' → is_function h' v = is_function h v.
Proof.
  intros (Hlen & _ & Hle & _). destruct v as [| |?|?|?|l]; try done.
  destruct (decide (l < length h)) as [Hl|Hl]; [by apply is_function_le|].
  unfold is_function, typeof, is_callable.
  rewrite !lookup_ge_None_2; [done | lia..].
Qed.

Lemma steady_source_grown (c : loc) (h h' : heap) (m : value) :
  grown_at c h h' → steady_source h m →
  steady_source h' m ∧ objOrPrototype h' m = objOrPrototype h m.
Proof.
  intros Hg [Hn|(l & s & -> & Hs & Hp)].
  - split; [by left | by destruct m].
  - assert (objOrPrototype h' (VObj l) = objOrPrototype h (VObj l)) as Heq.
    { unfold objOrPrototype. rewrite (grown_at_is_function c h h') by done.
      destruct (is_function h (VObj l)) eqn:Hf; [|done].
      destruct (Hp eq_refl) as [p Hown].
      assert (own h' l "prototype" = Some p) as Hown'.
      { destruct (decide (l = c)) as [->|Hne]; [by apply Hg|].
        destruct Hg as (_ & Ho & _). unfold own in *. by rewrite Ho. }
      by rewrite (get_own _ _ _ _ Hown), (get_own _ _ _ _ Hown'). }
    split; [|done]. right. exists l, s. split_and!; [done | congruence |].
    rewrite (grown_at_is_function c h h') by done. intros Hf.
    destruct (Hp Hf) as [p Hown]. exists p.
    destruct (decide (l = c)) as [->|Hne]; [by apply Hg|].
    destruct Hg as (_ & Ho & _). unfold own in *. by rewrite Ho.
Qed.

(** The child keeps the built-in [hasOwnProperty] as long as it gets no
    property of that name. *)
Lemma builtin_hasOwnProperty_grown (c : loc) (h h' : heap) :
  grown_at c h h' →
  own h' c "hasOwnProperty" = own h c "hasOwnProperty" →
  builtin_hasOwnProperty h c → builtin_hasOwnProperty h' c.
Proof.
  intros Hg Hk Hb. unfold builtin_hasOwnProperty, get in *.
  rewrite (grown_at_get_prop c h h') by done.
  destruct Hg as (_ & _ & Hle & _). by apply (code_of_le h h').
Qed.

Lemma mixin_prop_builtin (h : heap) (c i : loc) (k : string) :
  builtin_hasOwnProperty h c → k ≠ "__proto__" →
  mixin_prop (VObj c) (VObj i) h k
  = if has_own h c k then (h, Ret tt)
    else (put h c k (get h i k), Ret tt).
Proof.
  intros Hb Hk. unfold mixin_prop. rewrite hasOwnProperty_builtin by done.
  destruct (has_own h c k); [done|]. by rewrite decide_False.
Qed.

Lemma mixin_prop_owned (h : heap) (c i : loc) (k : string) :
  builtin_hasOwnProperty h c → has_own h c k = true →
  mixin_prop (VObj c) (VObj i) h k = (h, Ret tt).
Proof.
  intros Hb Hk. unfold mixin_prop. by rewrite hasOwnProperty_builtin, Hk.
Qed.

(** The inner loop of [mixin], over names not met before. *)
Lemma mixin_keys (h : heap) (c s : loc) (ks : list string) :
  c < length h → builtin_hasOwnProperty h c →
  ∀ hc seen,
    NoDup ks → (∀ k, k ∈ ks → k ∉ seen) →
    "hasOwnProperty" ∉ ks ++ seen → "__proto__" ∉ ks →
    grown_at c h hc →
    (∀ k, own hc c k =
          match own h c k with
          | Some p => Some p
          | None =>
              if decide (k ∈ seen) then Some (Prop_ (get h s k) true)
              else None
          end) →
    ∃ h',
      for_in (mixin_prop (VObj c) (VObj s)) ks hc = (h', Ret tt)
      ∧ grown_at c h h'
      ∧ ∀ k, own h' c k =
             match own h c k with
             | Some p => Some p
             | None =>
                 if decide (k ∈ ks ++ seen) then Some (Prop_ (get h s k) true)
                 else None
             end.
Proof.
  intros Hc Hb. induction ks as [|k0 ks IH];
    intros hc seen Hnd Hseen Hho Hpr Hg Hown.
  - exists hc. done.
  - apply NoDup_cons in Hnd as [Hk0 Hnd].
    assert (k0 ∉ seen) as Hk0s by (apply Hseen, list_elem_of_here).
    assert (∀ k, k ∈ ks → k ∉ k0 :: seen) as Hseen'.
    { intros k Hk. apply not_elem_of_cons. split; [by intros ->|].
      by apply Hseen, list_elem_of_further. }
    assert (∀ k, k ∈ (k0 :: ks) ++ seen ↔ k ∈ ks ++ k0 :: seen) as Hperm.
    { intros k. simpl. rewrite elem_of_cons, !elem_of_app, elem_of_cons.
      split; [intros [?|[?|?]] | intros [?|[?|?]]]; eauto. }
    assert ("hasOwnProperty" ∉ ks ++ k0 :: seen) as Hho'
      by (intros Hin; by apply Hho, Hperm).
    apply not_elem_of_cons in Hpr as [Hpr0 Hpr'].
    assert (builtin_hasOwnProperty hc c) as Hbc.
    { apply (builtin_hasOwnProperty_grown c h hc); [done | | done].
      rewrite Hown. destruct (own h c "hasOwnProperty"); [done|].
      rewrite decide_False; [done|]. intros Hin. apply Hho.
      apply elem_of_app. by right. }
    rewrite for_in_cons, mixin_prop_builtin by done. unfold has_own.
    pose proof (Hown k0) as Hk. rewrite decide_False in Hk by done.
    destruct (own h c k0) as [p|] eqn:Hh; rewrite Hk.
    + destruct (IH hc (k0 :: seen) Hnd Hseen' Hho' Hpr' Hg)
        as (h' & Hloop & Hg' & Hown').
      { intros k. rewrite Hown. destruct (own h c k) as [q|] eqn:Hq; [done|].
        destruct (decide (k = k0)) as [->|Hne]; [congruence|].
        destruct (decide (k ∈ seen));
          [by rewrite decide_True by (by apply list_elem_of_further)|].
        by rewrite decide_False by (by apply not_elem_of_cons). }
      exists h'. split_and!; [done..|]. intros k. rewrite Hown'.
      destruct (own h c k); [done|].
      destruct (decide (k ∈ ks ++ k0 :: seen)) as [Hin|Hin];
        [rewrite decide_True by (by apply Hperm) |
         rewrite decide_False by (by rewrite Hperm)]; done.
    + assert (get hc s k0 = get h s k0) as Hv.
      { unfold get. rewrite (grown_at_get_prop c h hc); [done..|congruence]. }
      rewrite Hv.
      destruct (IH (put hc c k0 (get h s k0)) (k0 :: seen) Hnd Hseen'
                  Hho' Hpr')
        as (h' & Hloop & Hg' & Hown').
      { eapply grown_at_trans; [done | by apply grown_at_put]. }
      { intros k. destruct (decide (k = k0)) as [->|Hne].
        - rewrite own_put_eq by (destruct Hg as (-> & _); done).
          rewrite Hk, Hh. by rewrite decide_True by apply list_elem_of_here.
        - rewrite own_put_ne_key by done. rewrite Hown.
          destruct (own h c k) as [q|]; [done|].
          destruct (decide (k ∈ seen));
            [by rewrite decide_True by (by apply list_elem_of_further)|].
          by rewrite decide_False by (by apply not_elem_of_cons). }
      exists h'. split_and!; [done..|]. intros k. rewrite Hown'.
      destruct (own h c k); [done|].
      destruct (decide (k ∈ ks ++ k0 :: seen)) as [Hin|Hin];
        [rewrite decide_True by (by apply Hperm) |
         rewrite decide_False by (by rewrite Hperm)]; done.
Qed.

Lemma mixin_source (h : heap) (c s : loc) :
  c < length h → builtin_hasOwnProperty h c →
  "hasOwnProperty" ∉ enum_keys h s → "__proto__" ∉ enum_keys h s →
  ∃ h',
    for_in (mixin_prop (VObj c) (VObj s)) (enum_keys h s) h = (h', Ret tt)
    ∧ grown_at c h h'
    ∧ ∀ k, own h' c k =
           match own h c k with
           | Some p => Some p
           | None =>
               if decide (k ∈ enum_keys h s)
               then Some (Prop_ (get h s k) true) else None
           end.
Proof.
  intros Hc Hb Hho Hpr.
  destruct (mixin_keys h c s (enum_keys h s) Hc Hb h [])
    as (h' & Hloop & Hg & Hown).
  - apply NoDup_enum_keys.
  - intros k _. apply not_elem_of_nil.
  - by rewrite app_nil_r.
  - done.
  - apply grown_at_refl.
  - intros k. destruct (own h c k); [done|].
    by rewrite decide_False by apply not_elem_of_nil.
  - exists h'. split_and!; [done..|]. intros k. rewrite Hown.
    by rewrite app_nil_r.
Qed.

Lemma enum_keys_grown (c : loc) (h h' : heap) (k : string) (s : loc) :
  grown_at c h h' → own h' c k = own h c k →
  k ∈ enum_keys h' s ↔ k ∈ enum_keys h s.
Proof.
  intros Hg Hk. by rewrite !elem_of_enum_keys, (grown_at_get_prop c h h').
Qed.

Lemma first_source_grown (c : loc) (h h' : heap) (k : string)
    (mixes : list value) :
  grown_at c h h' → own h' c k = own h c k →
  Forall (steady_source h) mixes →
  first_source h' k mixes = first_source h k mixes.
Proof.
  intros Hg Hk. induction 1 as [|m rest Hm _ IH]; simpl; [done|].
  destruct (steady_source_grown _ _ _ _ Hg Hm) as [_ ->].
  destruct (objOrPrototype h m) as [| |?|?|?|s]; try done.
  pose proof (enum_keys_grown c h h' k s Hg Hk) as Hiff.
  destruct (decide (k ∈ enum_keys h' s)) as [H1|H1],
    (decide (k ∈ enum_keys h s)) as [H2|H2]; try done.
  - by apply Hiff in H1.
  - by apply Hiff in H2.
Qed.

Lemma plain_names_grown (c : loc) (h h' : heap) (m : value) :
  grown_at c h h' →
  own h' c "hasOwnProperty" = own h c "hasOwnProperty" →
  own h' c "__proto__" = own h c "__proto__" →
  steady_source h m → plain_names h m → plain_names h' m.
Proof.
  intros Hg Hk1 Hk2 Hst Hpl s Hs.
  destruct (steady_source_grown _ _ _ _ Hg Hst) as [_ Heq].
  rewrite Heq in Hs. destruct (Hpl s Hs) as [H1 H2].
  split; intros Hin.
  - apply H1. by apply (enum_keys_grown c h h').
  - apply H2. by apply (enum_keys_grown c h h').
Qed.

(** No source gives a name that it does not enumerate. *)
Lemma first_source_None (h : heap) (k : string) (mixes : list value) :
  (∀ m s, m ∈ mixes → objOrPrototype h m = VObj s → k ∉ enum_keys h s) →
  first_source h k mixes = None.
Proof.
  induction mixes as [|m rest IH]; intros Hall; [done|].
  cbn [first_source].
  assert (first_source h k rest = None) as Hrest.
  { apply IH. intros m' s Hin. by apply Hall, list_elem_of_further. }
  destruct (objOrPrototype h m) as [| |?|?|?|s] eqn:Hs; try done.
  rewrite decide_False; [done|].
  by apply (Hall m s (list_elem_of_here _ _)).
Qed.

Lemma mixin_loop_cons (child m : value) (rest : list value) (h : heap) :
  mixin_loop child (m :: rest) h =
  match enum_of h (objOrPrototype h m) with
  | None => (h, Unmodelled)
  | Some keys =>
      match for_in (mixin_prop child (objOrPrototype h m)) keys h with
      | (h', Ret _) => mixin_loop child rest h'
      | (h', Thrown e) => (h', Thrown e)
      | (h', Unmodelled) => (h', Unmodelled)
      end
  end.
Proof. done. Qed.

Lemma mixin_loop_spec (c : loc) (mixes : list value) :
  ∀ h, c < length h → builtin_hasOwnProperty h c →
  Forall (steady_source h) mixes → Forall (plain_names h) mixes →
  ∃ h',
    mixin_loop (VObj c) mixes h = (h', Ret tt)
    ∧ grown_at c h h'
    ∧ ∀ k, own h' c k = mixed h c mixes k.
Proof.
  induction mixes as [|m rest IH]; intros h Hc Hb Hst Hpl.
  - exists h. split_and!; [done | apply grown_at_refl |].
    intros k. unfold mixed. simpl. by destruct (own h c k).
  - apply Forall_cons in Hst as [Hm Hrest].
    apply Forall_cons in Hpl as [Hpm Hprest]. rewrite mixin_loop_cons.
    destruct Hm as [Hn|(l & s & -> & Hs & Hp)].
    + destruct (IH h Hc Hb Hrest Hprest) as (h' & Hloop & Hg & Hown).
      exists h'. assert (objOrPrototype h m = m) as Hm by (by destruct m).
      unfold mixed. cbn [first_source]. rewrite Hm.
      destruct m; try done; simpl; (split_and!; [done..|]);
        intros k; by rewrite Hown.
    + rewrite Hs. simpl. destruct (Hpm s Hs) as [Hho Hpr].
      destruct (mixin_source h c s Hc Hb Hho Hpr)
        as (h1 & -> & Hg1 & Hown1).
      assert (∀ k, k ∉ enum_keys h s → own h1 c k = own h c k) as Hsame.
      { intros k Hk. rewrite Hown1. destruct (own h c k); [done|].
        by rewrite decide_False. }
      destruct (IH h1) as (h' & Hloop & Hg & Hown).
      { destruct Hg1 as (-> & _). done. }
      { apply (builtin_hasOwnProperty_grown c h h1); auto. }
      { eapply Forall_impl; [exact Hrest|]. intros m' Hm'.
        by destruct (steady_source_grown _ _ _ _ Hg1 Hm'). }
      { apply Forall_forall. intros m' Hin.
        rewrite Forall_forall in Hrest, Hprest.
        apply (plain_names_grown c h h1); auto. }
      exists h'. split_and!; [done | by eapply grown_at_trans |].
      intros k. rewrite Hown. unfold mixed. cbn [first_source].
      rewrite Hs, Hown1.
      destruct (own h c k) as [p|] eqn:Hk; [done|].
      destruct (decide (k ∈ enum_keys h s)); [reflexivity|].
      assert (own h1 c k = own h c k) as Heq
        by (by rewrite Hown1, Hk, decide_False).
      rewrite (first_source_grown c h h1) by done.
      destruct (first_source h k rest) as [s'|]; [|done].
      unfold get. by rewrite (grown_at_get_prop c h h1).
Qed.


(** ** extend, again *)

(** [extend] refuses a subclass whose prototype is missing or has a
    constructor other than the subclass ... *)
Lemma extend_not_pointing_back (h : heap) (s : loc) (superclass : value) :
  is_nullish superclass = false →
  truthy (get h s "prototype") = false
  ∨ (∃ p, get h s "prototype" = VObj p
          ∧ get h p "constructor" ≠ VObj s) →
  extend h (VObj s) superclass
  = (h, Thrown (ERROR_MESSAGES E_alreadyExtended)).
Proof.
  intros Hn H. unfold extend. simpl. rewrite Hn.
  destruct H as [->|(p & -> & Hc)]; [done|]. simpl.
  by rewrite decide_False.
Qed.

Lemma interpolate_from_strings (n : nat) (s : string) (strs : list string) :
  ∃ m, interpolate_from n s (VStr <$> strs) = Ret m.
Proof.
  revert n s. induction strs as [|r strs IH]; intros n s; simpl;
    [by eexists|].
  unfold arg_string. simpl. destruct (negb _); apply IH.
Qed.

(** An error whose message is made of strings is thrown with that
    message. *)
Lemma throw_error_strings {A : Type} (k : error_kind) (strs : list string)
    (h : heap) :
  ∃ msg,
    throw_error (A:=A) k (VStr <$> strs) h = (h, Thrown msg)
    ∧ interpolate (VStr (ERROR_MESSAGES k)) (VStr <$> strs) = Ret (VStr msg).
Proof.
  unfold throw_error, interpolate. simpl.
  destruct (interpolate_from_strings 0 (ERROR_MESSAGES k) strs) as [m ->].
  by exists m.
Qed.

(** With the built-in [hasOwnProperty], the loop of [extend] stops at the
    first name that the prototype owns. *)
Lemma extend_loop_builtin (h : heap) (p : loc) (keys : list string) :
  builtin_hasOwnProperty h p →
  for_in (extend_prop p) keys h =
  match find (has_own h p) keys with
  | Some key =>
      throw_error E_extendedProp
        [VStr "extend"; VStr key; VStr (typeof h (get h p key))] h
  | None => (h, Ret tt)
  end.
Proof.
  intros Hb. induction keys as [|k ks IH]; simpl; [done|].
  unfold extend_prop at 1. rewrite hasOwnProperty_builtin by done.
  destruct (has_own h p k); [|done].
  destruct (throw_error_strings (A:=unit) E_extendedProp
              ["extend"; k; typeof h (get h p k)] h) as (msg & Hm & _).
  simpl in Hm. by rewrite Hm.
Qed.

(** ... and one whose prototype has an enumerable property of its own, with
    the error made of the first such name and the type of its value. *)
Lemma extend_own_property (h : heap) (s p : loc) (superclass : value)
    (key : string) :
  is_nullish superclass = false →
  get h s "prototype" = VObj p → get h p "constructor" = VObj s →
  builtin_hasOwnProperty h p →
  find (has_own h p) (enum_keys h p) = Some key →
  ∃ msg,
    extend h (VObj s) superclass = (h, Thrown msg)
    ∧ interpolate (VStr (ERROR_MESSAGES E_extendedProp))
        [VStr "extend"; VStr key; VStr (typeof h (get h p key))]
      = Ret (VStr msg).
Proof.
  intros Hn Hp Hc Hb Hk. unfold extend. simpl. rewrite Hn, Hp. simpl.
  rewrite decide_True, extend_loop_builtin, Hk by done.
  destruct (throw_error_strings (A:=unit) E_extendedProp
              ["extend"; key; typeof h (get h p key)] h) as (msg & Hm & Hi).
  simpl in Hm. rewrite Hm. by exists msg.
Qed.

(** After [extend(A, B)] has returned, [extend(A, C)] throws, unless the
    prototype that [A] got from [B] inherits a constructor that is [A]. *)
Lemma extend_twice (h h1 : heap) (a : loc) (superclass other : value) :
  extend h (VObj a) superclass = (h1, Ret VUndef) →
  is_nullish other = false →
  (∀ b, superclass = VObj b →
     match (match get h b "prototype" with
            | VObj q => Some q
            | _ => ObjectPrototype
            end) with
     | Some l => get h l "constructor" ≠ VObj a
     | None => True
     end) →
  extend h1 (VObj a) other = (h1, Thrown (ERROR_MESSAGES E_alreadyExtended)).
Proof.
  unfold extend at 1, throw_error. simpl.
  destruct (is_nullish superclass) eqn:Hn; [repeat case_match; done|].
  destruct (truthy (get h a "prototype")) eqn:Htr; [|done].
  destruct (get h a "prototype") as [| |?|?|?|p] eqn:Hp; try done.
  case_decide as Hc; [|done].
  destruct (for_in _ _ h) as [hl rl] eqn:Hloop.
  apply extend_loop_heap in Hloop as ->.
  destruct rl as [[]|m|]; [|done..].
  destruct superclass as [| |?|?|?|b]; try done. simpl.
  destruct (read_only_prototype _ a); [done|].
  intros [= <-] Ho Hb. specialize (Hb b eq_refl).
  assert (a < length h) as Ha.
  { destruct (decide (a < length h)) as [|Hge]; [done|].
    rewrite get_invalid in Hp by lia. done. }
  set (h0 := put h a "parent" (VObj b)) in *.
  set (q := get h0 b "prototype") in *.
  assert (get h b "prototype" = q) as Hq
    by (unfold q, h0; by rewrite get_put_ne).
  rewrite Hq in Hb.
  assert (length h0 = length h) as Hlen by apply length_put.
  apply extend_not_pointing_back; [done|]. right.
  exists (length h0). split.
  { apply get_put_eq. rewrite length_app. simpl. lia. }
  rewrite get_put_ne by done. rewrite get_unfold.
  rewrite list_lookup_middle by done. simpl.
  destruct (match q with VObj ql => Some ql | _ => ObjectPrototype end)
    as [l|] eqn:Hl; [|done].
  case_decide as Hlt; [|done].
  rewrite (get_agree h0) by
    (first [apply heap_le_app | apply same_at_app | done]).
  unfold h0. by rewrite get_put_ne.
Qed.

(** ** The order of enumeration, under writes *)

Lemma same_off_le (P : list string) (h h' : heap) :
  same_off P h h' → heap_le h h'.
Proof.
  intros H l o Hl. destruct (H l o Hl) as (o' & ? & ? & ? & _). eauto.
Qed.

Lemma same_off_refl (P : list string) (h : heap) : same_off P h h.
Proof. intros l o Hl. exists o. done. Qed.

Lemma same_off_trans (P : list string) (h1 h2 h3 : heap) :
  same_off P h1 h2 → same_off P h2 h3 → same_off P h1 h3.
Proof.
  intros H12 H23 l o Hl.
  destruct (H12 l o Hl) as (o2 & Hl2 & Hp2 & Hf2 & Ho2).
  destruct (H23 l o2 Hl2) as (o3 & Hl3 & Hp3 & Hf3 & Ho3).
  exists o3. split_and!; congruence.
Qed.

Lemma same_off_app (P : list string) (h : heap) (os : list obj) :
  same_off P h (h ++ os).
Proof. intros l o Hl. exists o. by rewrite (lookup_app_l_Some _ _ _ _ Hl). Qed.

Lemma off_assoc_set (P : list string) (k : string) (v : value)
    (ps : list (string * prop)) :
  k ∈ P → off P (assoc_set k v ps) = off P ps.
Proof.
  intros Hk. unfold off. induction ps as [|[k' p] ps IH]; simpl.
  - by rewrite filter_cons_False by (simpl; intros Hn; by apply Hn).
  - case_decide; subst.
    + by rewrite !filter_cons_False by (simpl; intros Hn; by apply Hn).
    + rewrite !filter_cons. simpl. by rewrite IH.
Qed.

Lemma same_off_put (P : list string) (h : heap) (t : loc) (k : string)
    (v : value) :
  k ∈ P → same_off P h (put h t k v).
Proof.
  intros Hk l o Hl. unfold put. rewrite list_lookup_alter.
  case_decide; subst; rewrite Hl; simpl; [|by eauto].
  eexists. split_and!; [done..|]. simpl. by apply off_assoc_set.
Qed.

Lemma elem_of_off_keys (P : list string) (k : string)
    (ps : list (string * prop)) :
  k ∉ P → k ∈ ps.*1 ↔ k ∈ (off P ps).*1.
Proof.
  intros Hk. unfold off. induction ps as [|[k' p] ps IH]; simpl; [done|].
  rewrite filter_cons. simpl. destruct (decide (k' ∉ P)) as [Hin|Hin]; simpl.
  - by rewrite !elem_of_cons, IH.
  - rewrite elem_of_cons, IH. split; [|by right].
    intros [->|?]; [done|done].
Qed.

(** Among the names outside [P], the enumeration of a property table
    depends on the table without the names of [P] only. *)
Lemma enum_props_off (P seen seen' : list string)
    (ps : list (string * prop)) :
  (∀ k, k ∉ P → k ∈ seen ↔ k ∈ seen') →
  filter (λ k, k ∉ P) (enum_props seen ps)
  = filter (λ k, k ∉ P) (enum_props seen' (off P ps)).
Proof.
  revert seen seen'. unfold off.
  induction ps as [|[k p] ps IH]; intros seen seen' Hs; simpl; [done|].
  rewrite filter_cons. simpl.
  assert (∀ k', k' ∉ P → k' ∈ k :: seen ↔ k' ∈ k :: seen') as Hs'.
  { intros k' Hk'. by rewrite !elem_of_cons, (Hs k' Hk'). }
  destruct (decide (k ∉ P)) as [Hk|Hk]; simpl.
  - pose proof (Hs k Hk) as Hiff.
    destruct (decide (k ∈ seen)) as [H1|H1], (decide (k ∈ seen')) as [H2|H2];
      [by apply IH | by apply Hiff in H1 | by apply Hiff in H2 |].
    rewrite !filter_app. f_equal. by apply IH.
  - assert (k ∈ P) as HkP by (by destruct (decide (k ∈ P))).
    destruct (decide (k ∈ seen)) as [H1|H1]; [by apply IH|].
    rewrite filter_app.
    assert (filter (λ k0, k0 ∉ P) (if p_enum p then [k] else []) = []) as ->.
    { destruct (p_enum p); [|done].
      by rewrite filter_cons_False by (intros Hn; by apply Hn). }
    simpl. apply IH. intros k' Hk'. rewrite elem_of_cons, (Hs k' Hk').
    split; [intros [->|?]; done | by right].
Qed.

Lemma enum_along_off (P : list string) (h h' : heap) (c : list loc) :
  same_off P h h' → Forall (λ l, l < length h) c →
  ∀ seen seen', (∀ k, k ∉ P → k ∈ seen ↔ k ∈ seen') →
  filter (λ k, k ∉ P) (enum_along h seen c)
  = filter (λ k, k ∉ P) (enum_along h' seen' c).
Proof.
  intros Hoff. induction 1 as [|l c Hl _ IH]; intros seen seen' Hs; simpl;
    [done|].
  destruct (lookup_lt_is_Some_2 h _ Hl) as [o Ho].
  destruct (Hoff l o Ho) as (o' & Ho' & _ & _ & Hprops).
  rewrite Ho, Ho', !filter_app. f_equal.
  - rewrite (enum_props_off P seen seen' (props o)) by done.
    rewrite (enum_props_off P seen' seen' (props o')) by done.
    by rewrite Hprops.
  - apply IH. intros k Hk. rewrite !elem_of_app, (Hs k Hk).
    rewrite (elem_of_off_keys P k (props o)) by done.
    rewrite (elem_of_off_keys P k (props o')) by done.
    by rewrite Hprops.
Qed.

Lemma chain_valid (h : heap) (l : loc) :
  Forall (λ l', l' < length h) (chain h l).
Proof.
  induction l as [l IH] using lt_wf_ind. rewrite chain_unfold.
  destruct (h !! l) as [o|] eqn:Ho; [|constructor].
  constructor; [by apply lookup_lt_Some in Ho|].
  destruct (proto o) as [l'|]; [|constructor].
  case_decide; [by apply IH | constructor].
Qed.

Lemma chain_le (h h' : heap) (l : loc) :
  heap_le h h' → l < length h → chain h' l = chain h l.
Proof.
  intros Hle. induction l as [l IH] using lt_wf_ind. intros Hl.
  destruct (lookup_lt_is_Some_2 h _ Hl) as [o Ho].
  destruct (Hle _ _ Ho) as (o' & Ho' & Hp & _).
  rewrite (chain_unfold h'), (chain_unfold h), Ho, Ho', Hp. f_equal.
  destruct (proto o) as [l'|]; [|done].
  case_decide; [|done]. apply IH; lia.
Qed.

(** Writes to properties named in [P] leave the names outside [P] in the
    order they were enumerated in. *)
Lemma enum_keys_off (P : list string) (h h' : heap) (l : loc) :
  same_off P h h' → l < length h →
  filter (λ k, k ∉ P) (enum_keys h' l) = filter (λ k, k ∉ P) (enum_keys h l).
Proof.
  intros Hoff Hl. unfold enum_keys.
  rewrite (chain_le h h') by (by try apply (same_off_le P)).
  symmetry. apply enum_along_off; [done | apply chain_valid | done].
Qed.
(** ** bless, called again *)

Lemma for_in_stops (body : heap → string → heap * res unit)
    (keys : list string) (h h' : heap) (r : res unit) :
  (∀ u, r ≠ Ret u) → for_in body keys h = (h', r) →
  ∃ ks1 k ks2 hc,
    keys = ks1 ++ k :: ks2 ∧ for_in body ks1 h = (hc, Ret tt)
    ∧ body hc k = (h', r).
Proof.
  intros Hr. revert h. induction keys as [|k0 ks IH]; intros h.
  - intros [= _ <-]. by destruct (Hr tt).
  - rewrite for_in_cons. destruct (body h k0) as [h1 r1] eqn:Hb.
    destruct r1 as [[]|m|].
    + intros Hrest.
      destruct (IH h1 Hrest) as (ks1 & k & ks2 & hc & -> & H1 & H2).
      exists (k0 :: ks1), k, ks2, hc. rewrite for_in_cons, Hb. done.
    + intros [= <- <-]. by exists [], k0, ks, h.
    + intros [= <- <-]. by exists [], k0, ks, h.
Qed.

Lemma for_in_skip_until (body : heap → string → heap * res unit)
    (ks1 ks2 : list string) (k : string) (h : heap) (r : res unit) :
  (∀ u, r ≠ Ret u) →
  (∀ k', k' ∈ ks1 → body h k' = (h, Ret tt)) → body h k = (h, r) →
  for_in body (ks1 ++ k :: ks2) h = (h, r).
Proof.
  intros Hr Hskip Hk. induction ks1 as [|k0 ks1 IH]; simpl.
  - rewrite Hk. destruct r as [u| |]; [by destruct (Hr u) | done..].
  - rewrite Hskip by apply list_elem_of_here.
    apply IH. intros k' Hin. apply Hskip. by apply list_elem_of_further.
Qed.

Lemma bless_prop_off (P : list string) (h h' : heap) (t b : loc)
    (inWhichArg : value) (k : string) (r : res unit) :
  k ∈ P → bless_prop (VObj t) (VObj b) inWhichArg h k = (h', r) →
  same_off P h h'.
Proof.
  intros Hk Hb. destruct (bless_prop_cases _ _ _ _ _ _ _ Hb)
    as [[-> _]|[(_ & _ & -> & _)|(_ & _ & f & pos & _ & _ & _ & ->)]].
  - apply same_off_refl.
  - by apply same_off_put.
  - eapply same_off_trans; [apply same_off_app | by apply same_off_put].
Qed.

Lemma bless_loop_off (t b : loc) (inWhichArg : value)
    (keys : list string) (h h' : heap) (r : res unit) :
  for_in (bless_prop (VObj t) (VObj b) inWhichArg) keys h = (h', r) →
  same_off keys h h'.
Proof.
  apply (for_in_invariant (λ hc, same_off keys h hc)).
  - intros hc k hc' r' Hin Hoff Hb.
    eapply same_off_trans; [done | by eapply bless_prop_off].
  - apply same_off_refl.
Qed.

Lemma filter_none (P : list string) (ks : list string) :
  (∀ k, k ∈ ks → k ∈ P) → filter (λ k, k ∉ P) ks = [].
Proof.
  induction ks as [|k ks IH]; intros Hin; [done|].
  rewrite filter_cons_False
    by (intros Hn; apply Hn, Hin, list_elem_of_here).
  apply IH. intros k' Hk'. by apply Hin, list_elem_of_further.
Qed.

(** A second call of [bless] with the arguments of a first call that
    stopped stops on the same name in the same way and changes nothing,
    provided [blessee] resolves to the object it resolved to before. *)
Lemma bless_again_stopped (h h1 : heap)
    (blessee benediction inWhichArg : value) (r : res value) :
  (∀ v, r ≠ Ret v) →
  (∀ t, objOrPrototype h blessee = VObj t → t < length h) →
  bless h blessee benediction inWhichArg = (h1, r) →
  objOrPrototype h1 blessee = objOrPrototype h blessee →
  bless h1 blessee benediction inWhichArg = (h1, r).
Proof.
  intros Hr Hvt Hcall Hstable.
  assert (h1 = h → bless h1 blessee benediction inWhichArg = (h1, r))
    as Hsame by (by intros ->).
  generalize Hcall. unfold bless at 1, throw_error.
  destruct (is_nullish benediction) eqn:Hnb.
  { intros H. apply Hsame. revert H. repeat case_match; by intros [= <-]. }
  destruct (is_nullish blessee) eqn:Hnt.
  { intros H. apply Hsame. revert H. repeat case_match; by intros [= <-]. }
  destruct (enum_of h (objOrPrototype h benediction)) as [keys|] eqn:Hkeys;
    [|intros [= <- _]; by apply Hsame].
  destruct (for_in _ keys h) as [h0 r0] eqn:Hloop. intros Hres.
  assert (h0 = h1 ∧ ∀ u, r0 ≠ Ret u) as [-> Hr0].
  { destruct r0 as [u|m|]; injection Hres as <- <-; [|done..].
    by destruct (Hr VUndef). }
  destruct (objOrPrototype h blessee) as [| |?|?|?|t] eqn:Hrt;
    try (apply Hsame; apply bless_unmodelled_target in Hloop;
         [by subst | by left]).
  destruct (objOrPrototype h benediction) as [| |?|?|?|b] eqn:Hrb;
    try (apply Hsame; apply bless_unmodelled_target in Hloop;
         [by subst | by right]).
  injection Hkeys as <-. specialize (Hvt t eq_refl).
  destruct (for_in_stops _ _ _ _ _ Hr0 Hloop)
    as (P & k0 & rest & hc & Hk & HP & Hstop).
  assert (b < length h) as Hvb.
  { apply (enum_keys_valid h b k0). rewrite Hk.
    apply elem_of_app. right. apply list_elem_of_here. }
  pose proof (NoDup_enum_keys h b) as Hnd. rewrite Hk in Hnd.
  apply NoDup_app in Hnd as (HndP & HkP & Hnd).
  assert (k0 ∉ P) as Hk0
    by (intros Hin; apply (HkP k0 Hin), list_elem_of_here).
  assert (hc = h1) as ->.
  { destruct (bless_prop_cases _ _ _ _ _ _ _ Hstop)
      as [[-> _]|[(_ & _ & _ & ->)|(_ & -> & _)]];
      [done | by destruct (Hr0 tt)..]. }
  pose proof (bless_loop_settles _ _ _ _ _ _ HndP Hvt Hvb HP) as Hset.
  pose proof (bless_loop_off _ _ _ _ _ _ _ HP) as Hoff.
  assert (head (filter (λ k, k ∉ P) (enum_keys h1 b)) = Some k0) as Hhead.
  { rewrite (enum_keys_off P h h1) by done.
    rewrite Hk, filter_app, filter_none by done.
    by rewrite filter_cons_True. }
  apply head_filter_Some in Hhead as (l1 & l2 & Hk1 & Hl1).
  unfold bless. rewrite Hnb, Hnt, Hstable.
  rewrite (bless_source_stable _ _ _ _ _ _ _ _ Hvt Hvb Hrb Hloop). simpl.
  rewrite Hk1, (for_in_skip_until _ l1 l2 k0 h1 r0 Hr0); [|..|done].
  - destruct r0 as [u|m|]; [by destruct (Hr0 u) | by injection Hres as <-..].
  - intros k Hin. apply settled_skip, Hset.
    rewrite Forall_forall in Hl1. specialize (Hl1 k Hin).
    by destruct (decide (k ∈ P)).
Qed.

(** C9 (amended): a second call of [bless] with the arguments of a first
    call ends as the first call did and leaves the heap as the first call
    left it, provided [blessee] resolves after the first call to the object
    it resolved to before. *)
Theorem bless_idempotent (h h1 : heap)
    (blessee benediction inWhichArg : value) (r : res value) :
  (∀ t, objOrPrototype h blessee = VObj t → t < length h) →
  bless h blessee benediction inWhichArg = (h1, r) →
  objOrPrototype h1 blessee = objOrPrototype h blessee →
  bless h1 blessee benediction inWhichArg = (h1, r).
Proof.
  intros Hvt Hcall Hstable. destruct r as [v|m|].
  - assert (v = VUndef) as ->.
    { revert Hcall. unfold bless, throw_error.
      repeat case_match; by intros [= _ <-]. }
    by apply (bless_again_returned h).
  - by apply (bless_again_stopped h).
  - by apply (bless_again_stopped h).
Qed.

(** * More of [blessed.js] *)

(** ** unBindAt: what it changes and when it returns *)

(** X1: [unBindAt] changes no object of the heap: it appends the delegate,
    a function and the object of its [prototype] property, and returns the
    reference to it; when it does not return, the heap is as it was. *)
Theorem unBindAt_only_appends (h : heap) (object func thisArgNumber : value) :
  ∃ os,
    (unBindAt h object func thisArgNumber).1 = h ++ os
    ∧ (os = []
       ∨ ((unBindAt h object func thisArgNumber).2 = Ret (VObj (length h))
          ∧ length os = 2
          ∧ is_callable (h ++ os) (length h) = true
          ∧ get (h ++ os) (length h) "length" = VNum (Fin 0)))
    ∧ ((∀ v, (unBindAt h object func thisArgNumber).2 ≠ Ret v) → os = []).
Proof.
  destruct (unBindAt h object func thisArgNumber) as [h' r] eqn:Hu.
  destruct (unBindAt_cases _ _ _ _ _ _ Hu)
    as [[-> Hr]|(f & t & z & _ & _ & _ & _ & _ & -> & ->)].
  - exists []. simpl. rewrite app_nil_r. split_and!; [done | by left | done].
  - eexists. simpl. split_and!; [done | right | intros Hr; by destruct (Hr (VObj (length h)))].
    split_and!; [done.. | |].
    + unfold is_callable, new_function. by rewrite list_lookup_middle.
    + unfold new_function. by rewrite get_unfold, list_lookup_middle.
Qed.



(** ** unBindAt: the positions it refuses, and [LAST_ARG] *)

Lemma no_dollar_uint (d : Decimal.uint) :
  no_dollar (NilEmpty.string_of_uint d) = true.
Proof. induction d; simpl; done. Qed.

Lemma no_dollar_string_of_Z (z : Z) : no_dollar (string_of_Z z) = true.
Proof.
  unfold string_of_Z. destruct (Z.to_int z) as [d|d]; simpl;
    destruct d; simpl; try done; apply no_dollar_uint.
Qed.

Lemma throw_error_negative {A : Type} (h : heap) (z : Z) :
  (z < 0)%Z → (- 2 ^ 53 ≤ z)%Z →
  throw_error (A:=A) E_negative
    [VStr "unBindAt"; VStr "thisArgNumber"; VNum (Fin z)] h
  = (h, Thrown ("unBindAt: Bad argument: parameter 'thisArgNumber' may not be negative, was '"
                +:+ string_of_Z z +:+ "'.")).
Proof.
  intros Hneg Hbig. unfold throw_error, interpolate. simpl.
  unfold arg_string. simpl.
  destruct (z =? 0)%Z eqn:H0; [lia|]. simpl.
  change (2 ^ 53)%Z with 9007199254740992%Z in Hbig.
  destruct (Z.abs z <=? _)%Z eqn:Hlt; [|apply Z.leb_gt in Hlt; lia].
  rewrite (replace_no_dollar _ _ (string_of_Z z))
    by apply no_dollar_string_of_Z.
  done.
Qed.

(** X3: [unBindAt] refuses a negative position with the error that shows
    the number, and leaves the heap as it was; this for the integers down to
    [- 2 ^ 53], which print with all their digits. *)
Theorem unBindAt_negative (h : heap) (object func : value) (f : loc)
    (z : Z) :
  is_nullish object = false → names_function h object func f →
  (z < 0)%Z → (- 2 ^ 53 ≤ z)%Z →
  unBindAt h object func (VNum (Fin z))
  = (h, Thrown ("unBindAt: Bad argument: parameter 'thisArgNumber' may not be negative, was '"
                +:+ string_of_Z z +:+ "'.")).
Proof.
  intros Ho Hf Hneg Hbig.
  destruct (names_function_resolve _ _ _ _ Hf) as (Hn & Hr & Hfun).
  unfold unBindAt. rewrite Ho, Hn, Hr, Hfun. unfold resolve_position.
  simpl. destruct (z <? 0)%Z eqn:Hz; [|lia].
  by apply throw_error_negative.
Qed.

(** X4: [unBindAt] refuses the position [NaN]; the error shows it as the
    empty text, [NaN] being falsy for [interpolate]. *)
Theorem unBindAt_NaN (h : heap) (object func : value) (f : loc) :
  is_nullish object = false → names_function h object func f →
  unBindAt h object func (VNum NaN)
  = (h, Thrown "unBindAt: Bad argument: parameter 'thisArgNumber' should be a number. Was '' (type number).").
Proof.
  intros Ho Hf.
  destruct (names_function_resolve _ _ _ _ Hf) as (Hn & Hr & Hfun).
  unfold unBindAt. rewrite Ho, Hn, Hr, Hfun. done.
Qed.

(** X5: with [LAST_ARG], a function that declares no parameter (and has no
    truthy [_applyLength]) is refused: the position would be -1. *)
Theorem unBindAt_LAST_ARG_no_parameter (h : heap) (object func : value)
    (f : loc) :
  is_nullish object = false → names_function h object func f →
  truthy (get h f "_applyLength") = false →
  get h f "length" = VNum (Fin 0) →
  unBindAt h object func (VObj LAST_ARG)
  = (h, Thrown "unBindAt: Bad argument: parameter 'thisArgNumber' may not be negative, was '-1'.").
Proof.
  intros Ho Hf Ha Hl.
  destruct (names_function_resolve _ _ _ _ Hf) as (Hn & Hr & Hfun).
  unfold unBindAt. rewrite Ho, Hn, Hr, Hfun. unfold resolve_position.
  simpl. rewrite decide_True by done. unfold js_or. rewrite Ha, Hl. done.
Qed.

(** X6: with [LAST_ARG], for a function of [k + 1] declared parameters, the
    delegate called with [k] arguments passes them on with the receiver as
    the last one, in a heap where the function's [apply] is the built-in
    one. *)
Theorem unBindAt_LAST_ARG_appends (h : heap) (object func : value)
    (f : loc) (k : nat) :
  is_nullish object = false → names_function h object func f →
  to_num (js_or (get h f "_applyLength") (get h f "length"))
  = Some (Fin (Z.of_nat (S k))) →
  ∃ os,
    unBindAt h object func (VObj LAST_ARG)
    = (h ++ os, Ret (VObj (length h)))
    ∧ ∀ h' R A, heap_le (h ++ os) h' → builtin_apply h' f → length A = k →
        call h' (length h) R A = call h' f object (A ++ [R]).
Proof.
  intros Ho Hf Hk.
  destruct (names_function_resolve _ _ _ _ Hf) as (Hn & Hr & Hfun).
  exists (new_function (length h) (Delegate object f k) 0). split.
  - unfold unBindAt. rewrite Ho, Hn, Hr, Hfun. unfold resolve_position.
    simpl is_nullish. cbv iota. rewrite decide_True by done.
    unfold minus_one. rewrite Hk. cbn [to_num].
    destruct (Z.ltb_spec (Z.of_nat (S k) - 1) 0) as [Hz|Hz]; [lia|].
    by replace (Z.to_nat (Z.of_nat (S k) - 1)) with k by lia.
  - intros h' R A Hle Hap HA.
    destruct (Hle (length h)
      (Obj [("length", Prop_ (VNum (Fin (Z.of_nat 0))) false);
            ("prototype", Prop_ (VObj (S (length h))) false)]
         FunctionPrototype (Some (Delegate object f k))))
      as (o' & Ho' & _ & Hfn).
    { by apply list_lookup_middle. }
    rewrite (call_delegate h' _ f o' object R _ A Ho' Hfn)
      by (done || apply is_callable_valid, Hf).
    f_equal. apply splice_beyond. lia.
Qed.

(** ** bless: what it changes, and what its delegates do *)

(** A call of [bless] leaves the heap alone or runs its loop on the two
    resolved objects. *)
Lemma bless_loop_of (h h' : heap) (blessee benediction inWhichArg : value)
    (r : res value) :
  bless h blessee benediction inWhichArg = (h', r) →
  h' = h
  ∨ ∃ t b r0,
      objOrPrototype h blessee = VObj t
      ∧ objOrPrototype h benediction = VObj b
      ∧ for_in (bless_prop (VObj t) (VObj b) inWhichArg) (enum_keys h b) h
        = (h', r0).
Proof.
  unfold bless, throw_error.
  destruct (is_nullish benediction);
    [repeat case_match; intros [= <- _]; by left|].
  destruct (is_nullish blessee);
    [repeat case_match; intros [= <- _]; by left|].
  destruct (enum_of h _) as [keys|] eqn:Hkeys; [|intros [= <- _]; by left].
  destruct (for_in _ keys h) as [h1 r1] eqn:Hloop.
  intros Hr. assert (h' = h1) as -> by (by destruct r1; injection Hr).
  destruct (objOrPrototype h blessee) as [| |?|?|?|t] eqn:Hrt;
    try (left; apply bless_unmodelled_target in Hloop; [done | by left]).
  destruct (objOrPrototype h benediction) as [| |?|?|?|b] eqn:Hrb;
    try (left; apply bless_unmodelled_target in Hloop; [done | by right]).
  injection Hkeys as <-. right. by exists t, b, r1.
Qed.

Lemma bless_prop_elsewhere (h h' : heap) (t b l : loc) (inWhichArg : value)
    (k : string) (r : res unit) :
  l ≠ t → l < length h →
  bless_prop (VObj t) (VObj b) inWhichArg h k = (h', r) →
  h' !! l = h !! l.
Proof.
  intros Hne Hl Hb. destruct (bless_prop_cases _ _ _ _ _ _ _ Hb)
    as [[-> _]|[(_ & _ & -> & _)|(_ & _ & f & pos & _ & _ & _ & ->)]].
  - done.
  - unfold put. by rewrite list_lookup_alter_ne.
  - unfold put. rewrite list_lookup_alter_ne by done. by apply lookup_app_l.
Qed.

(** X7: [bless] changes nothing but own properties of the resolved
    [blessee], and of those only the ones named by an enumerable property
    of [benediction]: every other object that was there is as it was
    ([benediction] too, unless it is the target), whatever is new is a
    delegate, and this however the call ends. *)
Theorem bless_changes_only (h h' : heap)
    (blessee benediction inWhichArg : value) (r : res value) (t : loc) :
  objOrPrototype h blessee = VObj t → t < length h →
  bless h blessee benediction inWhichArg = (h', r) →
  (∀ l, l ≠ t → l < length h → h' !! l = h !! l)
  ∧ (∀ b k, objOrPrototype h benediction = VObj b → k ∉ enum_keys h b →
       own h' t k = own h t k)
  ∧ heap_le h h'.
Proof.
  intros Hrt Ht Hcall.
  destruct (bless_loop_of _ _ _ _ _ _ Hcall)
    as [->|(t' & b & r0 & Hrt' & Hrb & Hloop)].
  { split_and!; [done.. | apply heap_le_refl]. }
  rewrite Hrt in Hrt'. injection Hrt' as <-. split_and!.
  - intros l Hne Hl. revert Hloop.
    apply (for_in_invariant
             (λ hc, length h ≤ length hc ∧ hc !! l = h !! l)); [|done].
    intros hc k hc' r' _ [Hlen Heq] Hstep.
    assert (t < length hc) as Htc by lia.
    destruct (bless_prop_frame _ _ _ _ _ _ _ Htc Hstep) as (Hle & _).
    apply heap_le_length in Hle. split; [lia|].
    rewrite <- Heq. eapply bless_prop_elsewhere; [done | lia | done].
  - intros b' k Hrb' Hk. rewrite Hrb in Hrb'. injection Hrb' as <-.
    by destruct (bless_loop_other _ _ _ k _ _ _ _ Ht Hk Hloop) as [_ ->].
  - by destruct (bless_loop_frame _ _ _ _ _ _ _ Ht Hloop).
Qed.

(** X8: when every enumerable property of [benediction] is there and not
    null on [blessee], [bless] returns and changes nothing, whatever
    [inWhichArg] is: a position is looked at only when a delegate is made. *)
Theorem bless_nothing_missing (h : heap)
    (blessee benediction inWhichArg : value) (t b : loc) :
  is_nullish blessee = false → is_nullish benediction = false →
  objOrPrototype h blessee = VObj t →
  objOrPrototype h benediction = VObj b →
  (∀ k, k ∈ enum_keys h b → is_nullish (get h t k) = false) →
  bless h blessee benediction inWhichArg = (h, Ret VUndef).
Proof.
  intros Hnt Hnb Hrt Hrb Hall. unfold bless. rewrite Hnt, Hnb, Hrt, Hrb.
  simpl. rewrite for_in_skip; [done|].
  intros k Hk. apply settled_skip. left. by apply Hall.
Qed.

Lemma find_all_false {A : Type} (f : A → bool) (l : list A) :
  (∀ x, x ∈ l → f x = false) → find f l = None.
Proof.
  induction l as [|x l IH]; intros Hall; simpl; [done|].
  rewrite Hall by apply list_elem_of_here.
  apply IH. intros y Hy. by apply Hall, list_elem_of_further.
Qed.

(** X9: after [bless(child, interf)] has returned, for an interface
    without null members, the object that [bless] worked on ([child], or its
    prototype when [child] is a constructor) passes
    [assertImplements(_, interf)]. *)
Theorem bless_then_implements (h h' : heap) (c i : loc)
    (child interf inWhichArg : value) :
  is_nullish child = false → is_nullish interf = false →
  objOrPrototype h child = VObj c → c < length h →
  objOrPrototype h interf = VObj i →
  (∀ k, k ∈ enum_keys h i → is_nullish (get h i k) = false) →
  bless h child interf inWhichArg = (h', Ret VUndef) →
  assertImplements h' (VObj c) interf = (h', Ret VUndef).
Proof.
  intros Hnc Hni Hrc Hc Hri Hall. unfold bless.
  rewrite Hnc, Hni, Hrc, Hri. simpl.
  destruct (for_in _ _ h) as [h0 r0] eqn:Hloop.
  destruct r0 as [[]|m|]; [|done..]. intros [= ->].
  assert (objOrPrototype h' interf = VObj i
          ∧ ∀ k, k ∈ enum_keys h' i → is_nullish (get h' c k) = false)
    as [Hri' Hok].
  { destruct (decide (i < length h)) as [Hi|Hi].
    - destruct (bless_loop_frame _ _ _ _ _ _ _ Hc Hloop) as [_ Hfr].
      split; [apply (bless_source_stable c i interf inWhichArg _ h h' _
                       Hc Hi Hri Hloop)|].
      intros k Hk.
      assert (k ∈ enum_keys h i) as Hk'
        by (by destruct (bless_loop_keys _ _ _ _ _ _ _ _ Hc Hi Hloop Hk)).
      destruct (bless_loop_settles _ _ _ _ _ _ (NoDup_enum_keys h i)
                  Hc Hi Hloop k Hk') as [Hn|(p & Hown & Hg)]; [done|].
      rewrite (get_own _ _ _ _ Hown), <- Hg, (Hfr i k) by auto.
      by apply Hall.
    - destruct (enum_keys h i) as [|k ks] eqn:Hk.
      + injection Hloop as <-. split; [done|]. intros k. rewrite Hk.
        intros Hin. by apply elem_of_nil in Hin.
      + assert (k ∈ enum_keys h i) as Hin
          by (rewrite Hk; apply list_elem_of_here).
        apply enum_keys_valid in Hin. lia. }
  unfold assertImplements. simpl. rewrite Hni, Hri'. simpl.
  rewrite for_in_assert, find_all_false; done.
Qed.

(** X10: what the documentation of [bless] promises of [util1]: after
    [bless(blessee, benediction, n)], for a function [benediction[p]] that
    [blessee] lacked, calling [blessee[p]] with a receiver [R] and arguments
    [A] is calling [benediction[p]] on [benediction] with [R] put in at
    position [n] of [A] (in front, when the position is left out), in the
    heap [bless] left and in every later one, as long as the [apply] of
    [benediction[p]] is the built-in one. *)
Theorem bless_delegate_calls (h : heap)
    (blessee benediction inWhichArg : value) (t b f : loc) (p : string)
    (n : nat) :
  is_nullish blessee = false → is_nullish benediction = false →
  objOrPrototype h blessee = VObj t →
  objOrPrototype h benediction = VObj b →
  t < length h → p ∈ enum_keys h b → is_nullish (get h t p) = true →
  get h b p = VObj f → is_callable h f = true →
  inWhichArg = VNum (Fin (Z.of_nat n))
  ∨ (is_nullish inWhichArg = true ∧ n = 0) →
  ∃ h' d,
    bless h blessee benediction inWhichArg = (h', Ret VUndef)
    ∧ get h' t p = VObj d
    ∧ ∀ h'' R A, heap_le h' h'' → builtin_apply h'' f →
        call h'' d R A = call h'' f (VObj b) (splice n R A).
Proof.
  intros Hnt Hnb Ht Hb Hvt Hp Hnull Hgf Hcf Harg.
  unfold bless. rewrite Hnt, Hnb, Ht, Hb. simpl.
  destruct (bless_loop_returns t b inWhichArg (enum_keys h b) h)
    as [h' Hloop].
  { destruct Harg as [->|[Hn _]]; [left; by exists n | by right]. }
  rewrite Hloop. exists h'.
  destruct (for_in_at _ _ _ _ _ Hp Hloop)
    as (ks1 & ks2 & h1 & h2 & Hkeys & H1 & Hstep & H2).
  pose proof (NoDup_enum_keys h b) as Hnd. rewrite Hkeys in Hnd.
  apply NoDup_app in Hnd as (_ & Hk1 & Hnd).
  apply NoDup_cons in Hnd as [Hk2 _].
  assert (p ∉ ks1) as Hk1'
    by (intros Hin; apply (Hk1 p Hin), list_elem_of_here).
  pose proof (enum_keys_valid _ _ _ Hp) as Hvb.
  pose proof (is_callable_valid _ _ Hcf) as Hvf.
  destruct (bless_loop_other _ _ _ p _ _ _ _ Hvt Hk1' H1) as [Hle1 Hs1].
  pose proof (heap_le_length _ _ Hle1) as Hlen1.
  assert (get h1 t p = get h t p) as Ht1 by (by apply get_agree).
  assert (get h1 b p = VObj f) as Hb1 by (rewrite <- Hgf; by apply get_agree).
  assert (is_callable h1 f = true) as Hc1
    by (by rewrite (is_callable_le h h1)).
  assert (heap_le h2 h' ∧ same_at p h2 h' ∧ t < length h2)
    as (Hle2 & Hs2 & Hvt2).
  { assert (t < length h1) as Hvt1 by lia.
    destruct (bless_prop_frame _ _ _ _ _ _ _ Hvt1 Hstep) as (Hle & _ & _).
    pose proof (heap_le_length _ _ Hle) as Hlen.
    assert (t < length h2) as Hvt2 by lia.
    destruct (bless_loop_other _ _ _ p _ _ _ _ Hvt2 Hk2 H2).
    done. }
  destruct (bless_prop_cases _ _ _ _ _ _ _ Hstep)
    as [[_ Hc]|[(_ & Hnf & _)|(_ & _ & f' & pos & Hg & _ & Hu & ->)]].
  - specialize (Hc eq_refl). congruence.
  - rewrite Hb1 in Hnf.
    assert (is_function h1 (VObj f) = true) as Hyes
      by (apply is_function_callable; eauto).
    congruence.
  - rewrite Hb1 in Hg. injection Hg as <-.
    assert (names_function h1 (VObj b) (VStr p) f) as Hname.
    { split; [|done]. right. by exists b, p. }
    rewrite (unBindAt_returns h1 (VObj b) (VStr p) inWhichArg f n
               eq_refl Hname Harg) in Hu.
    injection Hu as Hu. apply app_inv_head in Hu.
    unfold new_function in Hu. injection Hu as <-.
    set (hd := h1 ++ new_function _ _ _) in *.
    assert (hd !! length h1
            = Some (Obj [("length", Prop_ (VNum (Fin (Z.of_nat 0))) false);
                         ("prototype", Prop_ (VObj (S (length h1))) false)]
                      FunctionPrototype (Some (Delegate (VObj b) f n))))
      as Hd by (by apply list_lookup_middle).
    destruct (heap_le_put hd t p (VObj (length h1)) _ _ Hd)
      as (o1 & Ho1 & _ & Hfn1).
    destruct (Hle2 _ _ Ho1) as (o2 & Ho2 & _ & Hfn2).
    exists (length h1). split_and!; [done | |].
    + rewrite (get_agree _ _ _ _ Hle2 Hs2 Hvt2).
      apply get_put_eq. unfold hd. rewrite length_app. lia.
    + intros h'' R A Hle Hap.
      destruct (Hle _ _ Ho2) as (o3 & Ho3 & _ & Hfn3).
      apply (call_delegate h'' _ f o3); [done | | lia | done].
      by rewrite Hfn3, Hfn2, Hfn1.
Qed.

(** ** mixin *)

Lemma mixin_loop_nullish (child : value) (mixes : list value) (h : heap) :
  mixin_loop child mixes h
  = mixin_loop child (filter (λ m, is_nullish m = false) mixes) h.
Proof.
  revert h. induction mixes as [|m rest IH]; intros h; [done|].
  destruct (is_nullish m) eqn:Hn.
  - rewrite filter_cons_False by (by rewrite Hn). rewrite mixin_loop_cons.
    destruct m; try done; simpl; apply IH.
  - rewrite filter_cons_True by done. rewrite !mixin_loop_cons.
    destruct (enum_of h (objOrPrototype h m)) as [keys|]; [|done].
    destruct (for_in _ keys h) as [h1 [[]|e|]]; [apply IH | done..].
Qed.

(** X11: [mixin] passes over the sources that are null or undefined: the
    call is the call without them. *)
Theorem mixin_skips_nullish (h : heap) (child : value) (mixes : list value) :
  mixin h child mixes
  = mixin h child (filter (λ m, is_nullish m = false) mixes).
Proof. unfold mixin. by rewrite <- mixin_loop_nullish. Qed.

Lemma first_source_is_Some (h : heap) (k : string) (mixes : list value)
    (m : value) (s : loc) :
  m ∈ mixes → objOrPrototype h m = VObj s → k ∈ enum_keys h s →
  is_Some (first_source h k mixes).
Proof.
  intros Hin Hs Hk. induction mixes as [|m0 rest IH];
    [by apply elem_of_nil in Hin|].
  cbn [first_source]. apply elem_of_cons in Hin as [<-|Hin].
  - rewrite Hs. by rewrite decide_True.
  - destruct (objOrPrototype h m0); try by apply IH.
    case_decide; [done | by apply IH].
Qed.

(** The loops of [mixin] change nothing when the child owns every name that
    the sources enumerate. *)
Lemma mixin_loop_owned (c : loc) (mixes : list value) (h : heap) :
  builtin_hasOwnProperty h c →
  (∀ m, m ∈ mixes →
     is_nullish m = true
     ∨ ∃ s, objOrPrototype h m = VObj s
            ∧ ∀ k, k ∈ enum_keys h s → has_own h c k = true) →
  mixin_loop (VObj c) mixes h = (h, Ret tt).
Proof.
  intros Hb. induction mixes as [|m rest IH]; intros Hall; [done|].
  rewrite mixin_loop_cons.
  assert (mixin_loop (VObj c) rest h = (h, Ret tt)) as Hrest.
  { apply IH. intros m' Hin. by apply Hall, list_elem_of_further. }
  destruct (Hall m (list_elem_of_here _ _)) as [Hn|(s & Hs & Hown)].
  - by destruct m.
  - rewrite Hs. simpl. rewrite for_in_skip; [done|].
    intros k Hk. apply mixin_prop_owned; [done | by apply Hown].
Qed.

(** X12: [mixin] twice is [mixin] once, where [child.hasOwnProperty] is
    the built-in function and no source enumerates the names
    [hasOwnProperty] and [__proto__]: in the heap that a call left, the same
    call returns the child again and changes nothing. *)
Theorem mixin_idempotent (h : heap) (child : value) (mixes : list value)
    (c : loc) :
  is_nullish child = false → objOrPrototype h child = VObj c →
  c < length h → steady_source h child → builtin_hasOwnProperty h c →
  Forall (steady_source h) mixes → Forall (plain_names h) mixes →
  ∃ h',
    mixin h child mixes = (h', Ret (VObj c))
    ∧ mixin h' child mixes = (h', Ret (VObj c)).
Proof.
  intros Hn Hres Hc Hchild Hb Hst Hpl. unfold mixin. rewrite Hn, Hres.
  destruct (mixin_loop_spec c mixes h Hc Hb Hst Hpl)
    as (h' & -> & Hg & Hown).
  exists h'. split; [done|].
  destruct (steady_source_grown _ _ _ _ Hg Hchild) as [_ ->]. rewrite Hres.
  assert (builtin_hasOwnProperty h' c) as Hb'.
  { apply (builtin_hasOwnProperty_grown c h h'); [done | | done].
    rewrite Hown. unfold mixed.
    destruct (own h c "hasOwnProperty"); [done|].
    rewrite first_source_None; [done|]. intros m s Hin Hs.
    rewrite Forall_forall in Hpl. by destruct (Hpl m Hin s Hs). }
  rewrite mixin_loop_owned; [done.. |].
  intros m Hin. rewrite Forall_forall in Hst.
  pose proof (Hst m Hin) as Hm.
  destruct (steady_source_grown _ _ _ _ Hg Hm) as [_ Heq].
  destruct Hm as [Hm|(l & s & -> & Hs & _)]; [by left|].
  right. exists s. split; [congruence|]. intros k Hk.
  unfold has_own. destruct (own h' c k) as [p|] eqn:Hk'; [done|].
  assert (own h c k = None) as Hk0.
  { destruct (own h c k) as [p|] eqn:Hk0; [|done].
    destruct Hg as (_ & _ & _ & Hkeep). rewrite (Hkeep _ _ Hk0) in Hk'.
    done. }
  assert (k ∈ enum_keys h s) as Hk1
    by (apply (enum_keys_grown c h h'); [done | congruence | done]).
  destruct (first_source_is_Some h k mixes _ s Hin Hs Hk1) as [s' Hf].
  rewrite Hown in Hk'. unfold mixed in Hk'. by rewrite Hk0, Hf in Hk'.
Qed.

(** ** extend: when it accepts, and what it sets up *)

Lemma find_none_false {A : Type} (f : A → bool) (l : list A) (x : A) :
  find f l = None → x ∈ l → f x = false.
Proof.
  induction l as [|y l IH]; simpl; [intros _ Hin; by apply elem_of_nil in Hin|].
  destruct (f y) eqn:Hy; [done|]. intros Hfind Hin.
  apply elem_of_cons in Hin as [->|Hin]; [done | by apply IH].
Qed.

Lemma find_has_own_None (h : heap) (p : loc) :
  find (has_own h p) (enum_keys h p) = None
  ↔ ∀ k pr, own h p k = Some pr → p_enum pr = false.
Proof.
  split.
  - intros Hfind k pr Hown. destruct (p_enum pr) eqn:He; [|done].
    assert (k ∈ enum_keys h p) as Hk.
    { apply elem_of_enum_keys. exists pr. split; [by apply get_prop_own|done]. }
    pose proof (find_none_false _ _ _ Hfind Hk) as Hno.
    unfold has_own in Hno. by rewrite Hown in Hno.
  - intros Hall. apply find_all_false. intros k Hk.
    apply elem_of_enum_keys in Hk as (pr & Hget & He).
    unfold has_own. destruct (own h p k) as [pr'|] eqn:Hown; [|done].
    rewrite (get_prop_own _ _ _ _ Hown) in Hget. injection Hget as ->.
    rewrite (Hall _ _ Hown) in He. done.
Qed.

Lemma read_only_prototype_put (h : heap) (s t : loc) (k : string)
    (v : value) :
  read_only_prototype (put h t k v) s = read_only_prototype h s.
Proof. unfold read_only_prototype. by rewrite code_of_put. Qed.

(** X13: for a subclass whose [prototype] is an object on which
    [hasOwnProperty] is the built-in function, [extend] returns exactly
    when the [constructor] of that object is the subclass, the object has no
    enumerable property of its own, and the [prototype] property of the
    subclass can be written (the subclass is no class and no built-in
    constructor); what the prototype inherits, and what it owns but does not
    enumerate, does not count. *)
Theorem extend_returns_iff (h : heap) (a b p : loc) :
  get h a "prototype" = VObj p → builtin_hasOwnProperty h p →
  (∃ h', extend h (VObj a) (VObj b) = (h', Ret VUndef))
  ↔ get h p "constructor" = VObj a
    ∧ (∀ k pr, own h p k = Some pr → p_enum pr = false)
    ∧ read_only_prototype h a = false.
Proof.
  intros Hp Hb. unfold extend. simpl. rewrite Hp. simpl.
  rewrite extend_loop_builtin by done. split.
  - intros [h' Hext]. case_decide as Hc; [|done].
    destruct (find _ _) as [key|] eqn:Hfind.
    { destruct (throw_error_strings (A:=unit) E_extendedProp
                  ["extend"; key; typeof h (get h p key)] h)
        as (msg & Hm & _).
      simpl in Hm. by rewrite Hm in Hext. }
    rewrite read_only_prototype_put in Hext.
    destruct (read_only_prototype h a); [done|].
    split_and!; [done | by apply find_has_own_None | done].
  - intros (Hc & Hall & Hro). rewrite decide_True by done.
    apply find_has_own_None in Hall.
    rewrite Hall, read_only_prototype_put, Hro. by eexists.
Qed.

(** X14: what [extend(A, B)] sets up when it returns: [A.parent] is [B],
    [A.prototype] is one new, empty object whose prototype is the object
    [B.prototype]; no other object changes; and through the new object every
    property of [B.prototype] is read, [constructor] too, which is therefore
    that of [B.prototype] and no longer [A]. *)
Theorem extend_links (h h' : heap) (a b q : loc) :
  get h b "prototype" = VObj q → q < length h →
  extend h (VObj a) (VObj b) = (h', Ret VUndef) →
  get h' a "parent" = VObj b
  ∧ get h' a "prototype" = VObj (length h)
  ∧ h' !! length h = Some (Obj [] (Some q) None)
  ∧ length h' = S (length h)
  ∧ (∀ l, l ≠ a → l < length h → h' !! l = h !! l)
  ∧ (∀ k, k ≠ "parent" → k ≠ "prototype" →
       get h' (length h) k = get h q k).
Proof.
  intros Hq Hvq. unfold extend, throw_error. simpl.
  destruct (get h a "prototype") as [| |?|?|?|p] eqn:Hp;
    try (repeat case_match; done).
  simpl. case_decide as Hc; [|done].
  destruct (for_in _ _ h) as [hl rl] eqn:Hloop.
  apply extend_loop_heap in Hloop as ->.
  destruct rl as [[]|m|]; [|done..].
  rewrite get_put_ne, Hq by done.
  destruct (read_only_prototype _ a); [done|].
  unfold new_Clazz. rewrite length_put.
  intros [= <-].
  assert (a < length h) as Ha.
  { destruct (decide (a < length h)) as [|Hge]; [done|].
    rewrite get_invalid in Hp by lia. done. }
  set (h1 := put h a "parent" (VObj b)).
  set (h2 := h1 ++ [Obj [] (Some q) None]).
  assert (length h1 = length h) as Hl1 by apply length_put.
  assert (length h2 = S (length h)) as Hl2
    by (unfold h2; rewrite length_app; simpl; lia).
  assert (heap_le h1 h2) as Hle by apply heap_le_app.
  assert (∀ k, get (put h2 a "prototype" (VObj (length h))) (length h) k
               = get (put h2 a "prototype" (VObj (length h))) q k) as Hnew.
  { intros k. rewrite (get_unfold _ (length h)).
    unfold put at 1. rewrite list_lookup_alter_ne by lia.
    unfold h2 at 1. rewrite <- Hl1 at 1. rewrite list_lookup_middle by done.
    simpl. by rewrite decide_True by done. }
  split_and!.
  - rewrite get_put_ne by done.
    rewrite (get_agree h1 h2) by (done || apply same_at_app || lia).
    apply get_put_eq. lia.
  - apply get_put_eq. lia.
  - unfold put at 1. rewrite list_lookup_alter_ne by lia.
    unfold h2. rewrite <- Hl1 at 1. by rewrite list_lookup_middle.
  - by rewrite length_put.
  - intros l Hne Hl. unfold put. rewrite list_lookup_alter_ne by done.
    unfold h2. rewrite lookup_app_l by lia.
    unfold h1, put. by rewrite list_lookup_alter_ne.
  - intros k Hk1 Hk2. rewrite Hnew, get_put_ne by done.
    rewrite (get_agree h1 h2) by (done || apply same_at_app || lia).
    by apply get_put_ne.
Qed.

(** ** interpolate: a template without the placeholders *)

Lemma split_first_absent (pat s : string) :
  (∀ b a, s ≠ b +:+ pat +:+ a) → split_first pat s = None.
Proof.
  intros Habs. destruct (split_first pat s) as [[b a]|] eqn:Hs; [|done].
  apply split_first_Some in Hs. by apply Habs in Hs.
Qed.

Lemma interpolate_from_absent (n : nat) (s : string) (args : list value) :
  (∀ a, a ∈ args → is_Some (arg_string a)) →
  (∀ i b a, i < length args → s ≠ b +:+ placeholder (n + i) +:+ a) →
  interpolate_from n s args = Ret s.
Proof.
  revert n. induction args as [|x args IH]; intros n Hstr Habs; simpl;
    [done|].
  destruct (Hstr x (list_elem_of_here _ _)) as [r ->].
  unfold replace. rewrite split_first_absent.
  - apply IH.
    + intros a Ha. by apply Hstr, list_elem_of_further.
    + intros i b a Hi. replace (S n + i) with (n + S i) by lia.
      apply Habs. simpl. lia.
  - intros b a. replace n with (n + 0) by lia. apply Habs. simpl. lia.
Qed.

(** X15: a template in which none of the placeholders [{0}], ...,
    [{n-1}] of the [n] arguments occurs comes back as it is, whatever the
    arguments are (with dollar signs or without); arguments beyond the
    placeholders of the template are passed over. *)
Theorem interpolate_no_placeholder (s : string) (args : list value) :
  (∀ a, a ∈ args → is_Some (arg_string a)) →
  (∀ i b a, i < length args → s ≠ b +:+ placeholder i +:+ a) →
  interpolate (VStr s) args = Ret (VStr s).
Proof.
  intros Hstr Habs. unfold interpolate. simpl.
  by rewrite (interpolate_from_absent 0 s args Hstr Habs).
Qed.

(** ** Arguments that are null or undefined *)

(** X16: every function of the module refuses an argument that is null or
    undefined with the error that names the function and the parameter, and
    changes nothing; the parameters are looked at in the order [object],
    [func] for [unBindAt], [benediction], [blessee] for [bless], [subclass],
    [superclass] for [extend] and [child], [interf] for [assertImplements],
    so that the first of two null arguments is the one reported; a position
    is never refused for being null or undefined. *)
Theorem null_arguments (h : heap) (x y z : value) (mixes : list value)
    (n : value) :
  is_nullish x = false → is_nullish n = true →
  unBindAt h n y z
  = (h, Thrown "unBindAt: Bad argument: parameter 'object' was null or undefined.")
  ∧ unBindAt h x n z
    = (h, Thrown "unBindAt: Bad argument: parameter 'func' was null or undefined.")
  ∧ bless h y n z
    = (h, Thrown "bless: Bad argument: parameter 'benediction' was null or undefined.")
  ∧ bless h n x z
    = (h, Thrown "bless: Bad argument: parameter 'blessee' was null or undefined.")
  ∧ extend h n y
    = (h, Thrown "extend: Bad argument: parameter 'subclass' was null or undefined.")
  ∧ extend h x n
    = (h, Thrown "extend: Bad argument: parameter 'superclass' was null or undefined.")
  ∧ mixin h n mixes
    = (h, Thrown "mixin: Bad argument: parameter 'child' was null or undefined.")
  ∧ assertImplements h n y
    = (h, Thrown "assertImplements: Bad argument: parameter 'child' was null or undefined.")
  ∧ assertImplements h x n
    = (h, Thrown "assertImplements: Bad argument: parameter 'interf' was null or undefined.").
Proof.
  intros Hx Hn.
  unfold unBindAt, bless, extend, mixin, assertImplements.
  rewrite Hx, Hn. split_and!; done.
Qed.

(** ** Delegates of delegates *)

(** X17: a delegate can be unbound again: the delegate that
    [unBindAt(object2, unBindAt(object, func, n), m)] returns, called on a
    receiver [R] with arguments [A], applies [func] to [object]; [R] is put
    in at [m], and then [object2], the receiver of the inner delegate, at
    [n]; this as long as the [apply] of the inner delegate and that of
    [func] are the built-in one. *)
Theorem unBindAt_twice (h : heap) (object object2 func : value) (f : loc)
    (n m : nat) :
  is_nullish object = false → is_nullish object2 = false →
  names_function h object func f →
  let first := unBindAt h object func (VNum (Fin (Z.of_nat n))) in
  ∃ d1 d2 h2,
    first.2 = Ret (VObj d1)
    ∧ unBindAt first.1 object2 (VObj d1) (VNum (Fin (Z.of_nat m)))
      = (h2, Ret (VObj d2))
    ∧ ∀ h' R A, heap_le h2 h' → builtin_apply h' d1 → builtin_apply h' f →
        call h' d2 R A
        = call h' f object (splice n object2 (splice m R A)).
Proof.
  intros Ho Ho2 Hf. simpl.
  rewrite (unBindAt_returns h object func _ f n Ho Hf) by (by left).
  set (h1 := h ++ new_function (length h) (Delegate object f n) 0).
  assert (h1 !! length h
          = Some (Obj [("length", Prop_ (VNum (Fin (Z.of_nat 0))) false);
                       ("prototype", Prop_ (VObj (S (length h))) false)]
                    FunctionPrototype (Some (Delegate object f n))))
    as Hd1 by (by apply list_lookup_middle).
  assert (names_function h1 object2 (VObj (length h)) (length h)) as Hf1.
  { split; [by left|]. unfold is_callable. by rewrite Hd1. }
  exists (length h), (length h1). eexists. simpl. split_and!; [done | |].
  - apply (unBindAt_returns h1 object2 _ _ (length h) m Ho2 Hf1). by left.
  - intros h' R A Hle Hap1 Hap.
    set (h2 := h1 ++ new_function (length h1)
                       (Delegate object2 (length h) m) 0) in *.
    assert (h2 !! length h1
            = Some (Obj [("length", Prop_ (VNum (Fin (Z.of_nat 0))) false);
                         ("prototype", Prop_ (VObj (S (length h1))) false)]
                      FunctionPrototype
                      (Some (Delegate object2 (length h) m))))
      as Hd2 by (by apply list_lookup_middle).
    assert (h2 !! length h = h1 !! length h) as Hd1'.
    { unfold h2. apply lookup_app_l. by apply lookup_lt_Some in Hd1. }
    rewrite Hd1 in Hd1'.
    destruct (Hle _ _ Hd2) as (o2 & Ho2' & _ & Hfn2).
    destruct (Hle _ _ Hd1') as (o1 & Ho1' & _ & Hfn1).
    assert (length h < length h1) as Hlt by (by apply lookup_lt_Some in Hd1).
    rewrite (call_delegate h' (length h1) (length h) o2 object2 R m A)
      by done.
    apply (call_delegate h' (length h) f o1); [done.. | | done].
    apply is_callable_valid, Hf.
Qed.



End Blessed.

(** * The scenarios, run *)

Lemma interpolate_fills_witness :
  Forall (λ a, primitive a = true) [VStr "x"; VNum (Fin 7)]
  ∧ interpolate (VStr "{1} or {0}") [VStr "x"; VNum (Fin 7)]
    = Ret (VStr "7 or x").
Proof.
  assert (H : Forall (λ a, primitive a = true) [VStr "x"; VNum (Fin 7)])
    by (repeat constructor).
  split; [exact H|].
  destruct (interpolate_fills "{1} or {0}" _ H) as (strs & Hs & Hfill & _).
  apply Forall2_cons_inv_l in Hs as (r1 & strs1 & (H1 & _) & Hs & ->).
  apply Forall2_cons_inv_l in Hs as (r2 & strs2 & (H2 & _) & Hs & ->).
  apply Forall2_nil_inv_l in Hs as ->.
  vm_compute in H1. vm_compute in H2.
  injection H1 as <-. injection H2 as <-.
  rewrite Hfill; [done | repeat constructor].
Defined.

(** C4 fails on the code: after [extend(A, A)] has returned, [extend(A, C)]
    returns too, since the prototype that [A] then has inherits the
    constructor [A] from the one it had. *)
Theorem extend_twice_accepted :
  let first := extend None demo_TypeError ext_heap (VObj 0) (VObj 0) in
  let second := extend None demo_TypeError first.1 (VObj 0) (VObj 2) in
  first.2 = Ret VUndef ∧ second.2 = Ret VUndef
  ∧ get first.1 0 "parent" = VObj 0 ∧ get second.1 0 "parent" = VObj 2.
Proof. vm_compute. done. Qed.

Lemma util1_named : names_function util_heap (VObj 3) (VStr "util1") 4.
Proof. split; [right; by exists 3, "util1" | done]. Qed.

Lemma foo_util1_named : names_function foo_heap (VObj 4) (VStr "util1") 5.
Proof. split; [right; by exists 4, "util1" | done]. Qed.

Lemma foo_util1_applies (os : list obj) : builtin_apply (foo_heap ++ os) 5.
Proof. apply builtin_apply_app; [simpl; lia | done]. Qed.

Lemma unBindAt_delegate_witness :
  is_nullish (VObj 4) = false
  ∧ names_function foo_heap (VObj 4) (VStr "util1") 5
  ∧ ∃ os,
      unBindAt 8 (Some 0) (Some 1) foo_heap (VObj 4) (VStr "util1")
        (VNum (Fin (Z.of_nat 1)))
      = (foo_heap ++ os, Ret (VObj 9))
      ∧ builtin_apply (foo_heap ++ os) 5
      ∧ call demo_native demo_TypeError (foo_heap ++ os) 9 (VStr "me")
          [VStr "a"; VStr "b"]
        = call demo_native demo_TypeError (foo_heap ++ os) 5 (VObj 4)
            [VStr "a"; VStr "me"; VStr "b"].
Proof.
  split_and!; [done | exact foo_util1_named |].
  destruct (unBindAt_delegate demo_native 8 (Some 0) (Some 1) demo_TypeError
              foo_heap (VObj 4) (VStr "util1") 5 1 eq_refl foo_util1_named)
    as (os & Hu & Hcall).
  exists os. split_and!; [exact Hu | exact (foo_util1_applies os) |].
  exact (proj1 (Hcall (foo_heap ++ os) (VStr "me") [VStr "a"; VStr "b"]
                  (heap_le_refl _)) (foo_util1_applies os)).
Defined.

(** C1, as the specification states it, fails: [util1] is callable, but
    has a property [apply] of its own that is no function; the delegate
    throws where [util1], applied to [FooUtility] and the same arguments,
    returns. *)
Lemma delegate_own_apply :
  names_function apply_heap (VObj 4) (VStr "util1") 5
  ∧ unBindAt 0 (Some 0) (Some 1) apply_heap (VObj 4) (VStr "util1")
      (VNum (Fin 0))
    = ((unBindAt 0 (Some 0) (Some 1) apply_heap (VObj 4) (VStr "util1")
          (VNum (Fin 0))).1, Ret (VObj 7))
  ∧ call demo_native demo_TypeError
      (unBindAt 0 (Some 0) (Some 1) apply_heap (VObj 4) (VStr "util1")
         (VNum (Fin 0))).1 7 (VStr "me") [VStr "a"]
    = ((unBindAt 0 (Some 0) (Some 1) apply_heap (VObj 4) (VStr "util1")
          (VNum (Fin 0))).1, Thrown (demo_TypeError Not_a_function))
  ∧ call demo_native demo_TypeError
      (unBindAt 0 (Some 0) (Some 1) apply_heap (VObj 4) (VStr "util1")
         (VNum (Fin 0))).1 5 (VObj 4) [VStr "me"; VStr "a"]
    = ((unBindAt 0 (Some 0) (Some 1) apply_heap (VObj 4) (VStr "util1")
          (VNum (Fin 0))).1, Ret (VStr "me")).
Proof.
  split_and!; [split; [right; by exists 4, "util1" | done] | by vm_compute..].
Qed.




Lemma aFoo_valid (t : loc) :
  objOrPrototype util_heap (VObj 6) = VObj t → t < length util_heap.
Proof. vm_compute. intros [= <-]. lia. Qed.

Lemma bless_keeps_present_witness :
  (∀ t, objOrPrototype util_heap (VObj 6) = VObj t → t < length util_heap)
  ∧ is_nullish (get util_heap 6 "version") = false
  ∧ get (bless 0 None None util_heap (VObj 6) (VObj 3) VUndef).1 6 "version"
    = get util_heap 6 "version".
Proof.
  split_and!; [exact aFoo_valid | done |].
  apply (bless_keeps_present 0 None None util_heap _ (VObj 6) (VObj 3) VUndef
           (bless 0 None None util_heap (VObj 6) (VObj 3) VUndef).2);
    [exact aFoo_valid | by destruct (bless _ _ _ _ _ _ _) | done].
Defined.

(** C9, as the specification states it, fails: blessing a function without
    prototype with an object that has a [prototype] property gives the
    function that property, so that a second call blesses the object the
    property refers to. *)
Lemma bless_twice_differs :
  bless 0 None None bound_heap (VObj 3) (VObj 5) VUndef
  = ((bless 0 None None bound_heap (VObj 3) (VObj 5) VUndef).1, Ret VUndef)
  ∧ own (bless 0 None None bound_heap (VObj 3) (VObj 5) VUndef).1 4 "foo"
    = None
  ∧ own (bless 0 None None
           (bless 0 None None bound_heap (VObj 3) (VObj 5) VUndef).1
           (VObj 3) (VObj 5) VUndef).1 4 "foo"
    = Some (Prop_ (VNum (Fin 1)) true).
Proof. vm_compute. done. Qed.

Lemma mix_sources_steady :
  Forall (steady_source mix_heap) [VObj 5; VObj 6].
Proof.
  apply Forall_cons. split.
  { right. exists 5, 5. split_and!; [done..|]. by vm_compute. }
  apply Forall_cons. split; [|by apply Forall_nil].
  right. exists 6, 6. split_and!; [done..|]. by vm_compute.
Qed.

Lemma mix_sources_plain :
  Forall (plain_names mix_heap) [VObj 5; VObj 6].
Proof.
  apply Forall_cons. split.
  { intros s. vm_compute. intros [= <-].
    split; intros Hin; repeat (apply elem_of_cons in Hin as [Hin|Hin];
                                [done|]); by apply elem_of_nil in Hin. }
  apply Forall_cons. split; [|by apply Forall_nil].
  intros s. vm_compute. intros [= <-].
  split; intros Hin; repeat (apply elem_of_cons in Hin as [Hin|Hin];
                              [done|]); by apply elem_of_nil in Hin.
Qed.



(** For a child that is a constructor, what [mixin] returns is not the
    child but its prototype, which got the properties. *)
Lemma mixin_returns_prototype :
  objOrPrototype foo_heap (VObj 5) = VObj 6
  ∧ mixin demo_TypeError foo_heap (VObj 5) [VObj 7]
    = (put foo_heap 6 "version" (VStr "mine"), Ret (VObj 6)).
Proof. split; by vm_compute. Qed.

(** C7, as the specification states it, fails: with [_applyLength] set to 0,
    a value that is there but falsy, [LAST_ARG] stands for the position that
    [length] gives, not for the position -1 that is refused. *)
Lemma LAST_ARG_override_zero :
  own override_heap 3 "_applyLength" = Some (Prop_ (VNum (Fin 0)) true)
  ∧ get override_heap 3 "length" = VNum (Fin 2)
  ∧ unBindAt 0 None None override_heap (VObj 3) (VObj 3) (VObj 0)
    = unBindAt 0 None None override_heap (VObj 3) (VObj 3) (VNum (Fin (2 - 1)))
  ∧ unBindAt 0 None None override_heap (VObj 3) (VObj 3) (VObj 0)
    ≠ unBindAt 0 None None override_heap (VObj 3) (VObj 3) (VNum (Fin (0 - 1))).
Proof. split_and!; [done.. |]. intros H. vm_compute in H. discriminate. Qed.

Lemma unBindAt_LAST_ARG_witness :
  names_function util_heap (VObj 3) (VStr "util1") 4
  ∧ to_num (js_or (get util_heap 4 "_applyLength") (get util_heap 4 "length"))
    = Some (Fin 2)
  ∧ unBindAt 0 None None util_heap (VObj 3) (VStr "util1") (VObj 0)
    = unBindAt 0 None None util_heap (VObj 3) (VStr "util1")
        (VNum (Fin (2 - 1))).
Proof.
  split_and!; [exact util1_named | done |].
  exact (proj1 (proj2 (unBindAt_LAST_ARG 0 None None util_heap (VObj 3)
                         (VStr "util1") 4 2 util1_named eq_refl))).
Defined.


Lemma extend_throws_unchanged_witness :
  extend None demo_TypeError
    (extend None demo_TypeError ext_heap (VObj 0) (VObj 2)).1 (VObj 0)
    (VObj 2)
  = ((extend None demo_TypeError
        (extend None demo_TypeError ext_heap (VObj 0) (VObj 2)).1 (VObj 0)
        (VObj 2)).1,
     Thrown "extend: Already extended.")
  ∧ (extend None demo_TypeError
       (extend None demo_TypeError ext_heap (VObj 0) (VObj 2)).1 (VObj 0)
       (VObj 2)).1
    = (extend None demo_TypeError ext_heap (VObj 0) (VObj 2)).1.
Proof.
  assert (extend None demo_TypeError
            (extend None demo_TypeError ext_heap (VObj 0) (VObj 2)).1
            (VObj 0) (VObj 2)
          = ((extend None demo_TypeError
                (extend None demo_TypeError ext_heap (VObj 0) (VObj 2)).1
                (VObj 0) (VObj 2)).1,
             Thrown "extend: Already extended."))
    as H by (by vm_compute).
  split; [exact H|].
  destruct (extend_throws_unchanged None demo_TypeError _ _ _ _ _ H)
    as [Heq|(s & Hs & Hro & _)]; [exact Heq|].
  injection Hs as <-. vm_compute in Hro. discriminate.
Defined.

(** C10, as the specification states it, fails: for a class [A],
    [extend(A, B)] passes the checks and sets [A.parent], and then throws
    at the write of [A.prototype], which is read-only. *)
Lemma extend_class_sets_parent :
  get class_heap 4 "parent" = VUndef
  ∧ extend (Some 0) demo_TypeError class_heap (VObj 4) (VObj 6)
    = (put class_heap 4 "parent" (VObj 6),
       Thrown (demo_TypeError Read_only))
  ∧ get (put class_heap 4 "parent" (VObj 6)) 4 "parent" = VObj 6.
Proof. split_and!; by vm_compute. Qed.

Lemma bless_idempotent_witness :
  (∀ t, objOrPrototype util_heap (VObj 6) = VObj t → t < length util_heap)
  ∧ bless 0 None None util_heap (VObj 6) (VObj 3) VUndef
    = ((bless 0 None None util_heap (VObj 6) (VObj 3) VUndef).1, Ret VUndef)
  ∧ objOrPrototype (bless 0 None None util_heap (VObj 6) (VObj 3) VUndef).1
      (VObj 6)
    = objOrPrototype util_heap (VObj 6)
  ∧ bless 0 None None (bless 0 None None util_heap (VObj 6) (VObj 3) VUndef).1
      (VObj 6) (VObj 3) VUndef
    = ((bless 0 None None util_heap (VObj 6) (VObj 3) VUndef).1, Ret VUndef).
Proof.
  assert (bless 0 None None util_heap (VObj 6) (VObj 3) VUndef
          = ((bless 0 None None util_heap (VObj 6) (VObj 3) VUndef).1,
             Ret VUndef)) as H1 by (by vm_compute).
  assert (objOrPrototype
            (bless 0 None None util_heap (VObj 6) (VObj 3) VUndef).1 (VObj 6)
          = objOrPrototype util_heap (VObj 6)) as H2 by (by vm_compute).
  split_and!; [exact aFoo_valid | exact H1 | exact H2 |].
  exact (bless_idempotent 0 None None util_heap _ (VObj 6) (VObj 3) VUndef _
           aFoo_valid H1 H2).
Defined.

(** ** More scenarios *)

Lemma toString_named : names_function util_heap (VObj 0) (VStr "toString") 1.
Proof. split; [right; by exists 0, "toString" | done]. Qed.

Lemma unBindAt_negative_witness :
  is_nullish (VObj 3) = false
  ∧ names_function util_heap (VObj 3) (VStr "util1") 4
  ∧ (-1 < 0)%Z ∧ (- 2 ^ 53 ≤ -1)%Z
  ∧ unBindAt 0 None None util_heap (VObj 3) (VStr "util1") (VNum (Fin (-1)))
    = (util_heap,
       Thrown "unBindAt: Bad argument: parameter 'thisArgNumber' may not be negative, was '-1'.").
Proof.
  split_and!; [done | exact util1_named | lia | lia |].
  exact (unBindAt_negative 0 None None util_heap (VObj 3) (VStr "util1") 4
           (-1) eq_refl util1_named ltac:(lia) ltac:(lia)).
Defined.

Lemma unBindAt_NaN_witness :
  is_nullish (VObj 3) = false
  ∧ names_function util_heap (VObj 3) (VStr "util1") 4
  ∧ unBindAt 0 None None util_heap (VObj 3) (VStr "util1") (VNum NaN)
    = (util_heap,
       Thrown "unBindAt: Bad argument: parameter 'thisArgNumber' should be a number. Was '' (type number).").
Proof.
  split_and!; [done | exact util1_named |].
  exact (unBindAt_NaN 0 None None util_heap (VObj 3) (VStr "util1") 4
           eq_refl util1_named).
Defined.

Lemma unBindAt_LAST_ARG_no_parameter_witness :
  is_nullish (VObj 0) = false
  ∧ names_function util_heap (VObj 0) (VStr "toString") 1
  ∧ truthy (get util_heap 1 "_applyLength") = false
  ∧ get util_heap 1 "length" = VNum (Fin 0)
  ∧ unBindAt 0 None None util_heap (VObj 0) (VStr "toString") (VObj 0)
    = (util_heap,
       Thrown "unBindAt: Bad argument: parameter 'thisArgNumber' may not be negative, was '-1'.").
Proof.
  split_and!; [done | exact toString_named | done | done |].
  exact (unBindAt_LAST_ARG_no_parameter 0 None None util_heap (VObj 0)
           (VStr "toString") 1 eq_refl toString_named eq_refl eq_refl).
Defined.

Lemma unBindAt_LAST_ARG_appends_witness :
  is_nullish (VObj 4) = false
  ∧ names_function foo_heap (VObj 4) (VStr "util1") 5
  ∧ to_num (js_or (get foo_heap 5 "_applyLength") (get foo_heap 5 "length"))
    = Some (Fin (Z.of_nat 2))
  ∧ ∃ os,
      unBindAt 8 (Some 0) (Some 1) foo_heap (VObj 4) (VStr "util1") (VObj 8)
      = (foo_heap ++ os, Ret (VObj 9))
      ∧ builtin_apply (foo_heap ++ os) 5
      ∧ call demo_native demo_TypeError (foo_heap ++ os) 9 (VStr "me")
          [VStr "a"]
        = call demo_native demo_TypeError (foo_heap ++ os) 5 (VObj 4)
            [VStr "a"; VStr "me"].
Proof.
  split_and!; [done | exact foo_util1_named | done |].
  destruct (unBindAt_LAST_ARG_appends demo_native 8 (Some 0) (Some 1)
              demo_TypeError foo_heap (VObj 4) (VStr "util1") 5 1 eq_refl
              foo_util1_named eq_refl)
    as (os & Hu & Hcall).
  exists os. split_and!; [exact Hu | exact (foo_util1_applies os) |].
  exact (Hcall (foo_heap ++ os) (VStr "me") [VStr "a"] (heap_le_refl _)
           (foo_util1_applies os) eq_refl).
Defined.

Lemma bless_changes_only_witness :
  objOrPrototype util_heap (VObj 6) = VObj 6 ∧ 6 < length util_heap
  ∧ (bless 0 None None util_heap (VObj 6) (VObj 3) VUndef).1 !! 3
    = util_heap !! 3
  ∧ own (bless 0 None None util_heap (VObj 6) (VObj 3) VUndef).1 6 "other"
    = own util_heap 6 "other".
Proof.
  assert (6 < length util_heap) as Hv by (simpl; lia).
  assert ("other" ∉ enum_keys util_heap 3) as Hk.
  { vm_compute. intros Hin. apply elem_of_cons in Hin as [Hin|Hin]; [done|].
    apply elem_of_cons in Hin as [Hin|Hin]; [done|].
    by apply elem_of_nil in Hin. }
  split_and!; [done | exact Hv | |].
  - refine (proj1 (bless_changes_only 0 None None util_heap _ (VObj 6)
                     (VObj 3) VUndef _ 6 eq_refl Hv
                     (surjective_pairing _)) 3 _ _); lia.
  - exact (proj1 (proj2 (bless_changes_only 0 None None util_heap _ (VObj 6)
                           (VObj 3) VUndef _ 6 eq_refl Hv
                           (surjective_pairing _))) 3 "other" eq_refl Hk).
Defined.

Lemma version_present (k : string) :
  k ∈ enum_keys util_heap 6 → is_nullish (get util_heap 3 k) = false.
Proof.
  vm_compute. intros Hin. apply elem_of_cons in Hin as [->|Hin]; [done|].
  by apply elem_of_nil in Hin.
Qed.

Lemma bless_nothing_missing_witness :
  is_nullish (VObj 3) = false ∧ is_nullish (VObj 6) = false
  ∧ objOrPrototype util_heap (VObj 3) = VObj 3
  ∧ objOrPrototype util_heap (VObj 6) = VObj 6
  ∧ (∀ k, k ∈ enum_keys util_heap 6 → is_nullish (get util_heap 3 k) = false)
  ∧ bless 0 None None util_heap (VObj 3) (VObj 6) (VNum (Fin (-1)))
    = (util_heap, Ret VUndef).
Proof.
  split_and!; [done.. | exact version_present |].
  exact (bless_nothing_missing 0 None None util_heap (VObj 3) (VObj 6)
           (VNum (Fin (-1))) 3 6 eq_refl eq_refl eq_refl eq_refl
           version_present).
Defined.

Lemma FooUtility_not_null (k : string) :
  k ∈ enum_keys util_heap 3 → is_nullish (get util_heap 3 k) = false.
Proof.
  vm_compute. intros Hin. apply elem_of_cons in Hin as [->|Hin]; [done|].
  apply elem_of_cons in Hin as [->|Hin]; [done|].
  by apply elem_of_nil in Hin.
Qed.

Lemma bless_aFoo_returns :
  bless 0 None None util_heap (VObj 6) (VObj 3) VUndef
  = ((bless 0 None None util_heap (VObj 6) (VObj 3) VUndef).1, Ret VUndef).
Proof. by vm_compute. Qed.

Lemma bless_then_implements_witness :
  is_nullish (VObj 6) = false ∧ is_nullish (VObj 3) = false
  ∧ objOrPrototype util_heap (VObj 6) = VObj 6 ∧ 6 < length util_heap
  ∧ objOrPrototype util_heap (VObj 3) = VObj 3
  ∧ (∀ k, k ∈ enum_keys util_heap 3 → is_nullish (get util_heap 3 k) = false)
  ∧ bless 0 None None util_heap (VObj 6) (VObj 3) VUndef
    = ((bless 0 None None util_heap (VObj 6) (VObj 3) VUndef).1, Ret VUndef)
  ∧ assertImplements
      (bless 0 None None util_heap (VObj 6) (VObj 3) VUndef).1 (VObj 6)
      (VObj 3)
    = ((bless 0 None None util_heap (VObj 6) (VObj 3) VUndef).1, Ret VUndef).
Proof.
  assert (6 < length util_heap) as Hv by (simpl; lia).
  split_and!; [done.. | exact Hv | done | exact FooUtility_not_null
               | exact bless_aFoo_returns |].
  exact (bless_then_implements 0 None None util_heap _ 6 3 (VObj 6) (VObj 3)
           VUndef eq_refl eq_refl eq_refl Hv eq_refl FooUtility_not_null
           bless_aFoo_returns).
Defined.

Lemma foo_util1_enumerated : "util1" ∈ enum_keys foo_heap 4.
Proof. vm_compute. apply list_elem_of_here. Qed.

Lemma foo_blessed_applies :
  builtin_apply
    (bless 8 (Some 0) (Some 1) foo_heap (VObj 7) (VObj 4) VUndef).1 5.
Proof. by vm_compute. Qed.

Lemma bless_delegate_calls_witness :
  is_nullish (VObj 7) = false ∧ is_nullish (VObj 4) = false
  ∧ objOrPrototype foo_heap (VObj 7) = VObj 7
  ∧ objOrPrototype foo_heap (VObj 4) = VObj 4
  ∧ 7 < length foo_heap ∧ "util1" ∈ enum_keys foo_heap 4
  ∧ is_nullish (get foo_heap 7 "util1") = true
  ∧ get foo_heap 4 "util1" = VObj 5 ∧ is_callable foo_heap 5 = true
  ∧ ∃ h' d,
      bless 8 (Some 0) (Some 1) foo_heap (VObj 7) (VObj 4) VUndef
      = (h', Ret VUndef)
      ∧ get h' 7 "util1" = VObj d
      ∧ builtin_apply h' 5
      ∧ call demo_native demo_TypeError h' d (VObj 7) [VStr "a"]
        = call demo_native demo_TypeError h' 5 (VObj 4) [VObj 7; VStr "a"].
Proof.
  assert (7 < length foo_heap) as Hv by (simpl; lia).
  split_and!; [done | done | done | done | exact Hv
               | exact foo_util1_enumerated | done | done | done |].
  destruct (bless_delegate_calls demo_native 8 (Some 0) (Some 1)
              demo_TypeError foo_heap (VObj 7)
              (VObj 4) VUndef 7 4 5 "util1" 0 eq_refl eq_refl eq_refl eq_refl
              Hv foo_util1_enumerated eq_refl eq_refl eq_refl
              (or_intror (conj eq_refl eq_refl)))
    as (h' & d & Hb & Hg & Hcall).
  assert (builtin_apply h' 5) as Ha.
  { replace h' with
      (bless 8 (Some 0) (Some 1) foo_heap (VObj 7) (VObj 4) VUndef).1
      by (by rewrite Hb).
    exact foo_blessed_applies. }
  exists h', d. split_and!; [exact Hb | exact Hg | exact Ha |].
  exact (Hcall h' (VObj 7) [VStr "a"] (heap_le_refl _) Ha).
Defined.

Lemma mix_child_steady : steady_source mix_heap (VObj 4).
Proof. right. exists 4, 4. split_and!; [done..|]. by vm_compute. Qed.

Lemma mixin_idempotent_witness :
  is_nullish (VObj 4) = false ∧ objOrPrototype mix_heap (VObj 4) = VObj 4
  ∧ 4 < length mix_heap ∧ steady_source mix_heap (VObj 4)
  ∧ builtin_hasOwnProperty mix_heap 4
  ∧ Forall (steady_source mix_heap) [VObj 5; VObj 6]
  ∧ Forall (plain_names mix_heap) [VObj 5; VObj 6]
  ∧ ∃ h', mixin demo_TypeError mix_heap (VObj 4) [VObj 5; VObj 6]
          = (h', Ret (VObj 4))
          ∧ mixin demo_TypeError h' (VObj 4) [VObj 5; VObj 6]
            = (h', Ret (VObj 4)).
Proof.
  assert (4 < length mix_heap) as Hv by (simpl; lia).
  split_and!; [done | done | exact Hv | exact mix_child_steady | done
               | exact mix_sources_steady | exact mix_sources_plain |].
  exact (mixin_idempotent demo_TypeError mix_heap (VObj 4) [VObj 5; VObj 6]
           4 eq_refl eq_refl Hv mix_child_steady eq_refl mix_sources_steady
           mix_sources_plain).
Defined.

Lemma extend_returns_iff_witness :
  get class_heap 6 "prototype" = VObj 7
  ∧ builtin_hasOwnProperty class_heap 7
  ∧ get class_heap 7 "constructor" = VObj 6
  ∧ read_only_prototype class_heap 6 = false
  ∧ read_only_prototype class_heap 4 = true
  ∧ (∃ h', extend (Some 0) demo_TypeError class_heap (VObj 6) (VObj 4)
           = (h', Ret VUndef))
  ∧ ¬ (∃ h', extend (Some 0) demo_TypeError class_heap (VObj 4) (VObj 6)
             = (h', Ret VUndef)).
Proof.
  split_and!; [done.. | |].
  - apply (extend_returns_iff (Some 0) demo_TypeError class_heap 6 4 7
             eq_refl eq_refl).
    split_and!; [done | | done].
    intros k pr. vm_compute. case_match; [intros [= <-]; done | done].
  - intros Hret.
    apply (extend_returns_iff (Some 0) demo_TypeError class_heap 4 6 5
             eq_refl eq_refl) in Hret as (_ & _ & Hro).
    done.
Defined.

Lemma extend_links_witness :
  get ext_heap 2 "prototype" = VObj 3 ∧ 3 < length ext_heap
  ∧ extend None demo_TypeError ext_heap (VObj 0) (VObj 2)
    = ((extend None demo_TypeError ext_heap (VObj 0) (VObj 2)).1, Ret VUndef)
  ∧ get (extend None demo_TypeError ext_heap (VObj 0) (VObj 2)).1 0 "parent"
    = VObj 2
  ∧ get (extend None demo_TypeError ext_heap (VObj 0) (VObj 2)).1
      (length ext_heap) "constructor"
    = get ext_heap 3 "constructor".
Proof.
  assert (3 < length ext_heap) as Hv by (simpl; lia).
  assert (extend None demo_TypeError ext_heap (VObj 0) (VObj 2)
          = ((extend None demo_TypeError ext_heap (VObj 0) (VObj 2)).1,
             Ret VUndef)) as He
    by (by vm_compute).
  split_and!; [done | exact Hv | exact He | |].
  - exact (proj1 (extend_links None demo_TypeError ext_heap _ 0 2 3 eq_refl
                    Hv He)).
  - refine (proj2 (proj2 (proj2 (proj2 (proj2
              (extend_links None demo_TypeError ext_heap _ 0 2 3 eq_refl
                 Hv He)))))
              "constructor" _ _); done.
Defined.

Lemma no_placeholder_0 (i : nat) (b a : string) :
  i < length [VStr "$&"] → "{1} only" ≠ b +:+ placeholder i +:+ a.
Proof.
  intros Hi. assert (i = 0) as -> by (simpl in Hi; lia).
  by apply split_first_None.
Qed.

Lemma dollar_has_string (a : value) :
  a ∈ [VStr "$&"] → is_Some (arg_string a).
Proof.
  intros Hin. apply elem_of_cons in Hin as [->|Hin]; [by eexists|].
  by apply elem_of_nil in Hin.
Qed.

Lemma interpolate_no_placeholder_witness :
  (∀ a, a ∈ [VStr "$&"] → is_Some (arg_string a))
  ∧ (∀ i b a, i < length [VStr "$&"] →
       "{1} only" ≠ b +:+ placeholder i +:+ a)
  ∧ interpolate (VStr "{1} only") [VStr "$&"] = Ret (VStr "{1} only").
Proof.
  split_and!; [exact dollar_has_string | exact no_placeholder_0 |].
  exact (interpolate_no_placeholder "{1} only" [VStr "$&"] dollar_has_string
           no_placeholder_0).
Defined.

Lemma null_arguments_witness :
  is_nullish (VObj 3) = false ∧ is_nullish VUndef = true
  ∧ bless 0 None None util_heap VNull VUndef VUndef
    = (util_heap,
       Thrown "bless: Bad argument: parameter 'benediction' was null or undefined.").
Proof.
  split_and!; [done.. |].
  exact (proj1 (proj2 (proj2
           (null_arguments 0 None None demo_TypeError util_heap (VObj 3)
              VNull VUndef [] VUndef eq_refl eq_refl)))).
Defined.

Lemma foo_twice_applies :
  builtin_apply
    (unBindAt 8 (Some 0) (Some 1)
       (unBindAt 8 (Some 0) (Some 1) foo_heap (VObj 4) (VStr "util1")
          (VNum (Fin (Z.of_nat 0)))).1
       (VObj 7) (VObj 9) (VNum (Fin (Z.of_nat 1)))).1 9
  ∧ builtin_apply
      (unBindAt 8 (Some 0) (Some 1)
         (unBindAt 8 (Some 0) (Some 1) foo_heap (VObj 4) (VStr "util1")
            (VNum (Fin (Z.of_nat 0)))).1
         (VObj 7) (VObj 9) (VNum (Fin (Z.of_nat 1)))).1 5.
Proof. split; by vm_compute. Qed.

Lemma unBindAt_twice_witness :
  is_nullish (VObj 4) = false ∧ is_nullish (VObj 7) = false
  ∧ names_function foo_heap (VObj 4) (VStr "util1") 5
  ∧ ∃ d1 d2 h2,
      (unBindAt 8 (Some 0) (Some 1) foo_heap (VObj 4) (VStr "util1")
         (VNum (Fin (Z.of_nat 0)))).2 = Ret (VObj d1)
      ∧ unBindAt 8 (Some 0) (Some 1)
          (unBindAt 8 (Some 0) (Some 1) foo_heap (VObj 4) (VStr "util1")
             (VNum (Fin (Z.of_nat 0)))).1
          (VObj 7) (VObj d1) (VNum (Fin (Z.of_nat 1)))
        = (h2, Ret (VObj d2))
      ∧ builtin_apply h2 d1 ∧ builtin_apply h2 5
      ∧ call demo_native demo_TypeError h2 d2 (VStr "me") [VStr "a"]
        = call demo_native demo_TypeError h2 5 (VObj 4)
            [VObj 7; VStr "a"; VStr "me"].
Proof.
  split_and!; [done | done | exact foo_util1_named |].
  destruct (unBindAt_twice demo_native 8 (Some 0) (Some 1) demo_TypeError
              foo_heap (VObj 4) (VObj 7) (VStr "util1") 5 0 1 eq_refl eq_refl
              foo_util1_named)
    as (d1 & d2 & h2 & H1 & H2 & Hcall).
  assert (d1 = 9) as -> by (vm_compute in H1; by injection H1).
  assert (builtin_apply h2 9 ∧ builtin_apply h2 5) as [Ha1 Ha].
  { replace h2 with
      (unBindAt 8 (Some 0) (Some 1)
         (unBindAt 8 (Some 0) (Some 1) foo_heap (VObj 4) (VStr "util1")
            (VNum (Fin (Z.of_nat 0)))).1
         (VObj 7) (VObj 9) (VNum (Fin (Z.of_nat 1)))).1
      by (by rewrite H2).
    exact foo_twice_applies. }
  exists 9, d2, h2. split_and!; [exact H1 | exact H2 | exact Ha1 | exact Ha |].
  exact (Hcall h2 (VStr "me") [VStr "a"] (heap_le_refl _) Ha1 Ha).
Defined.
